(** * DevDonalds cookbook: entry admission, recipe resolution, cook time

    A shallow embedding of [backend/py_template/devdonalds.py]: the
    cookbook (a Python list of dataclass instances), the admission handler
    [create_entry], the query handler [summary] and its two helpers
    [get_base_ingredients] and [get_total_cook_time].

    Conventions of the embedding:
    - Python integers are [Z]; Python strings are [string].
    - A Python [dict] keyed by strings is a [gmap string Z]; the handlers
      never observe the iteration order of a dict except through sums.
    - The global list [cookbook] is passed explicitly; [create_entry]
      returns the new list together with what the handler produced.
    - A handler either returns a response or lets an exception escape.
    - The interpreter allows only so many nested calls. The [nat] argument
      [fuel] of [get_base_ingredients] is the number of nested calls of it
      that the recursion limit still allows; one call more and the
      interpreter raises [RecursionError], which is the result [TooDeep].
      It goes up through the callers like any exception, and [summary]
      catches it with the others. The limit is a setting of the
      interpreter, so the statements are made for every value of it, or
      for every value from some bound on.
    - A JSON payload is a record of optional fields; a field that is
      present has the JSON type the dataclasses declare for it. *)

From stdpp Require Import gmap strings list fin_maps.
From Stdlib Require Import ZArith Lia Ascii.

Local Open Scope Z_scope.

(** ** Type definitions (the dataclasses) *)

Record RequiredItem := mkRequiredItem {
  ri_name : string;
  ri_quantity : Z
}.

Record Recipe := mkRecipe {
  r_name : string;
  required_items : list RequiredItem
}.

Record Ingredient := mkIngredient {
  i_name : string;
  cook_time : Z
}.

(** [CookbookEntry] with its two subclasses. The [type] attribute of the
    Python objects is ["recipe"] for a [Recipe] and ["ingredient"] for an
    [Ingredient] (the only two ways [create_entry] builds them), so the
    constructor stands for it. *)
Inductive CookbookEntry :=
| ERecipe (r : Recipe)
| EIngredient (i : Ingredient).

Global Instance RequiredItem_eq_dec : EqDecision RequiredItem.
Proof. solve_decision. Defined.
Global Instance Recipe_eq_dec : EqDecision Recipe.
Proof. solve_decision. Defined.
Global Instance Ingredient_eq_dec : EqDecision Ingredient.
Proof. solve_decision. Defined.
Global Instance CookbookEntry_eq_dec : EqDecision CookbookEntry.
Proof. solve_decision. Defined.

Definition entry_name (e : CookbookEntry) : string :=
  match e with
  | ERecipe r => r_name r
  | EIngredient i => i_name i
  end.

Definition entry_type (e : CookbookEntry) : string :=
  match e with
  | ERecipe _ => "recipe"
  | EIngredient _ => "ingredient"
  end.

Definition Cookbook := list CookbookEntry.

(** ** Exceptions, results and responses *)

Inductive Exn :=
| KeyError (key : string)
| AttributeError (msg : string)
| Exception (msg : string)
| RecursionError.

(** [str(e)]. For [RecursionError] it is the text the interpreter gives
    when a call of a Python function, as the one of line 191, goes beyond
    the limit. *)
Definition exn_str (e : Exn) : string :=
  match e with
  | KeyError key => String.append "'" (String.append key "'")
  | AttributeError msg => msg
  | Exception msg => msg
  | RecursionError => "maximum recursion depth exceeded"
  end.

(** What a helper gives back: a value, an exception raised by the source
    ([Raise]), or the [RecursionError] that the interpreter raises when the
    calls are nested deeper than the recursion limit allows ([TooDeep]). *)
Inductive Result (A : Type) :=
| Ok (a : A)
| Raise (e : Exn)
| TooDeep.
Arguments Ok {A} a.
Arguments Raise {A} e.
Arguments TooDeep {A}.

Inductive Body :=
| EmptyBody
| ErrorJson (error : string)
| SummaryJson (name : option string) (cookTime : Z) (ingredients : gmap string Z).

Record Response := mkResponse {
  body : Body;
  status : Z
}.

Inductive Outcome :=
| Returned (r : Response)
| Raised (e : Exn).

(** [jsonify({"error": msg}), 400] *)
Definition error_400 (msg : string) : Response := mkResponse (ErrorJson msg) 400.

(** The top-level keys of the JSON object a response carries. *)
Definition body_keys (b : Body) : list string :=
  match b with
  | EmptyBody => []
  | ErrorJson _ => ["error"]
  | SummaryJson _ _ _ => ["name"; "cookTime"; "ingredients"]
  end.

(** A response with the text of its error message blanked: what is left of
    a returned value once the human-readable message is not looked at. *)
Definition erase_message (r : Response) : Response :=
  match body r with
  | ErrorJson _ => mkResponse (ErrorJson "") (status r)
  | _ => r
  end.

(** The message literals of the source, one per [return ... 400] / [raise]. *)
Definition msg_type_missing : string :=
  "The type is missing! Please add the type to your request!!!".
Definition msg_invalid_type : string :=
  "Please use the specified type of either 'recipe' or 'ingredient'.".
Definition msg_missing_required_items : string :=
  "Please ensure your recipe has a requiredItems field.".
Definition msg_invalid_cook_time : string :=
  "Please enter a valid 'cookTime' that is greater or equal to 0!!!".
Definition msg_duplicate_name : string :=
  "An entry of this name already exists. Please provide unique entry names!!!".
Definition msg_duplicate_required_item : string :=
  "There are duplicate entires in 'requiredItems'. It can only contain unique elements!!!".
Definition msg_wrong_type : string :=
  "An ingredient was passed in. Please ONLY pass in a valid recipe!!!".
Definition msg_not_found : string :=
  "Recipe is not in the cookbook!!!".
Definition msg_missing_dependency : string :=
  "The recipe contains recipes or ingredients that aren't in the cookbook.".
Definition msg_no_cook_time_attr : string :=
  "'Recipe' object has no attribute 'cook_time'".

(** ** Straight-line handler code with early exits

    [Next a] continues with [a]; [Stop o] leaves the handler with the
    outcome [o] (a [return] or an escaping exception). *)

Inductive Step (A : Type) :=
| Next (a : A)
| Stop (o : Outcome).
Arguments Next {A} a.
Arguments Stop {A} o.

Global Instance Step_ret : MRet Step := fun A a => Next a.
Global Instance Step_bind : MBind Step := fun A B f m =>
  match m with
  | Next a => f a
  | Stop o => Stop o
  end.

(** [payload[key]]: [KeyError] when the key is absent. *)
Definition subscript {A} (field : option A) (key : string) : Step A :=
  match field with
  | Some a => Next a
  | None => Stop (Raised (KeyError key))
  end.

(** [if cond: return jsonify({"error": msg}), 400] *)
Definition reject_if (cond : bool) (msg : string) : Step unit :=
  if cond then Stop (Returned (error_400 msg)) else Next tt.

(** ** The request payloads *)

Record RequiredItemPayload := mkRequiredItemPayload {
  p_item_name : option string;
  p_item_quantity : option Z
}.

Record Payload := mkPayload {
  p_type : option string;
  p_name : option string;
  p_cookTime : option Z;
  p_requiredItems : option (list RequiredItemPayload)
}.

(** ** [create_entry] *)

(** Lines 85-87: the scan of the cookbook for an entry of the same name.
    [payload["name"]] is evaluated once per visited entry. *)
Fixpoint check_existing (cookbook : Cookbook) (payload : Payload) : Step unit :=
  match cookbook with
  | [] => Next tt
  | existing_entry :: rest =>
      name ← subscript (p_name payload) "name";
      if String.eqb (entry_name existing_entry) name
      then Stop (Returned (error_400 msg_duplicate_name))
      else check_existing rest payload
  end.

(** Lines 91-97: one [RequiredItem] per element of [payload["requiredItems"]];
    [int(...)] of an integer is that integer. *)
Fixpoint build_required_items (items : list RequiredItemPayload)
  : Step (list RequiredItem) :=
  match items with
  | [] => Next []
  | required_item :: rest =>
      name ← subscript (p_item_name required_item) "name";
      quantity ← subscript (p_item_quantity required_item) "quantity";
      built ← build_required_items rest;
      Next (mkRequiredItem name quantity :: built)
  end.

Fixpoint validate_required_items_loop (required_items_list : list RequiredItem)
  (seen : gset string) : bool :=
  match required_items_list with
  | [] => false
  | item :: rest =>
      if bool_decide (ri_name item ∈ seen) then true
      else validate_required_items_loop rest (seen ∪ {[ri_name item]})
  end.

(** [True] when two items of the list share a name. *)
Definition validate_required_items (required_items_list : list RequiredItem) : bool :=
  validate_required_items_loop required_items_list ∅.

Definition create_entry_steps (cookbook : Cookbook) (payload : Payload)
  : Step Cookbook :=
  ty ← match p_type payload with
       | None => Stop (Returned (error_400 msg_type_missing))
       | Some ty => Next ty
       end;
  _ ← reject_if (negb (String.eqb ty "recipe" || String.eqb ty "ingredient"))
        msg_invalid_type;
  _ ← reject_if (String.eqb ty "recipe" && negb (bool_decide (is_Some (p_requiredItems payload))))
        msg_missing_required_items;
  _ ← (if String.eqb ty "ingredient"
       then c ← subscript (p_cookTime payload) "cookTime";
            reject_if (c <? 0) msg_invalid_cook_time
       else Next tt);
  _ ← check_existing cookbook payload;
  required_items_list ←
    (if String.eqb ty "recipe"
     then items ← subscript (p_requiredItems payload) "requiredItems";
          build_required_items items
     else Next []);
  _ ← reject_if (validate_required_items required_items_list)
        msg_duplicate_required_item;
  cookbook1 ←
    (if String.eqb ty "recipe"
     then name ← subscript (p_name payload) "name";
          Next (cookbook ++ [ERecipe (mkRecipe name required_items_list)])
     else Next cookbook);
  cookbook2 ←
    (if String.eqb ty "ingredient"
     then name ← subscript (p_name payload) "name";
          c ← subscript (p_cookTime payload) "cookTime";
          Next (cookbook1 ++ [EIngredient (mkIngredient name c)])
     else Next cookbook1);
  Next cookbook2.

(** The handler: the new cookbook and what the caller gets. Every exit
    before the final [return ("", 200)] happens before any [append]. *)
Definition create_entry (cookbook : Cookbook) (payload : Payload)
  : Cookbook * Outcome :=
  match create_entry_steps cookbook payload with
  | Next cookbook' => (cookbook', Returned (mkResponse EmptyBody 200))
  | Stop o => (cookbook, o)
  end.

(** ** [get_base_ingredients] *)

(** Lines 177-181: the first cookbook item of that name. *)
Fixpoint find_entry (cookbook : Cookbook) (name : string) : option CookbookEntry :=
  match cookbook with
  | [] => None
  | cookbook_item :: rest =>
      if String.eqb (entry_name cookbook_item) name then Some cookbook_item
      else find_entry rest name
  end.

(** [d[k] = d.get(k, 0) + v] *)
Definition dict_add (d : gmap string Z) (k : string) (v : Z) : gmap string Z :=
  <[k := default 0 (d !! k) + v]> d.

(** [for k, v in pairs: d[k] = d.get(k, 0) + v] *)
Definition dict_add_all (d : gmap string Z) (pairs : list (string * Z))
  : gmap string Z :=
  foldl (fun acc kv => dict_add acc kv.1 kv.2) d pairs.

(** Lines 192-193: the loop above over [sub.items()]. *)
Definition dict_merge (base sub : gmap string Z) : gmap string Z :=
  dict_add_all base (map_to_list sub).

(** The [for required_item in recipe.required_items] loop, with the
    recursive call abstracted as [rec]. *)
Fixpoint get_base_ingredients_loop (cookbook : Cookbook)
  (rec : Recipe -> Z -> Result (gmap string Z))
  (items : list RequiredItem) (multiplier : Z)
  (base_ingredients : gmap string Z) : Result (gmap string Z) :=
  match items with
  | [] => Ok base_ingredients
  | required_item :: rest =>
      match find_entry cookbook (ri_name required_item) with
      | None => Raise (Exception msg_missing_dependency)
      | Some entry =>
          let total_quantity := ri_quantity required_item * multiplier in
          match entry with
          | EIngredient _ =>
              get_base_ingredients_loop cookbook rec rest multiplier
                (dict_add base_ingredients (ri_name required_item) total_quantity)
          | ERecipe sub_recipe =>
              match rec sub_recipe total_quantity with
              | Ok sub_ingredients =>
                  get_base_ingredients_loop cookbook rec rest multiplier
                    (dict_merge base_ingredients sub_ingredients)
              | Raise e => Raise e
              | TooDeep => TooDeep
              end
          end
      end
  end.

(** [fuel] is the number of nested calls of this function that the
    recursion limit still allows: with none left the call itself raises
    [RecursionError] ([TooDeep]), and each recursive call of line 191 has
    one less. *)
Fixpoint get_base_ingredients (fuel : nat) (cookbook : Cookbook)
  (recipe : Recipe) (multiplier : Z) : Result (gmap string Z) :=
  match fuel with
  | O => TooDeep
  | S fuel' =>
      get_base_ingredients_loop cookbook (get_base_ingredients fuel' cookbook)
        (required_items recipe) multiplier ∅
  end.

(** ** [get_total_cook_time] *)

(** Lines 204-206: every cookbook item of that name adds to the total;
    reading [cook_time] of a [Recipe] raises. *)
Fixpoint cook_time_scan (cookbook : Cookbook) (ingredient_name : string)
  (quantity : Z) (total_cook_time : Z) : Result Z :=
  match cookbook with
  | [] => Ok total_cook_time
  | cookbook_item :: rest =>
      if String.eqb (entry_name cookbook_item) ingredient_name then
        match cookbook_item with
        | EIngredient i =>
            cook_time_scan rest ingredient_name quantity
              (total_cook_time + cook_time i * quantity)
        | ERecipe _ => Raise (AttributeError msg_no_cook_time_attr)
        end
      else cook_time_scan rest ingredient_name quantity total_cook_time
  end.

Fixpoint get_total_cook_time_loop (cookbook : Cookbook)
  (items : list (string * Z)) (total_cook_time : Z) : Result Z :=
  match items with
  | [] => Ok total_cook_time
  | (ingredient_name, quantity) :: rest =>
      match cook_time_scan cookbook ingredient_name quantity total_cook_time with
      | Ok total => get_total_cook_time_loop cookbook rest total
      | other => other
      end
  end.

Definition get_total_cook_time (cookbook : Cookbook)
  (base_ingredients : gmap string Z) : Result Z :=
  get_total_cook_time_loop cookbook (map_to_list base_ingredients) 0.

(** ** [summary] *)

(** Lines 144-149: the last recipe of that name, unless an ingredient of
    that name is met first or later, which returns at once. *)
Fixpoint find_recipe_entry (cookbook : Cookbook) (query_name : option string)
  (recipe_entry : option Recipe) : Step (option Recipe) :=
  match cookbook with
  | [] => Next recipe_entry
  | cookbook_item :: rest =>
      if bool_decide (Some (entry_name cookbook_item) = query_name) then
        match cookbook_item with
        | ERecipe r => find_recipe_entry rest query_name (Some r)
        | EIngredient _ => Stop (Returned (error_400 msg_wrong_type))
        end
      else find_recipe_entry rest query_name recipe_entry
  end.

(** Lines 154-158 catch every [Exception] of the resolver, the
    [RecursionError] of a too deep expansion among them, and answer 400
    with [str(e)]; line 160 is outside the [try]. [fuel] is the number of
    nested calls of [get_base_ingredients] the recursion limit allows. *)
Definition summary (fuel : nat) (cookbook : Cookbook) (query_name : option string)
  : Outcome :=
  match find_recipe_entry cookbook query_name None with
  | Stop o => o
  | Next None => Returned (error_400 msg_not_found)
  | Next (Some recipe_entry) =>
      match get_base_ingredients fuel cookbook recipe_entry 1 with
      | Raise e => Returned (error_400 (exn_str e))
      | TooDeep => Returned (error_400 (exn_str RecursionError))
      | Ok base_ingredients_dict =>
          match get_total_cook_time cookbook base_ingredients_dict with
          | Ok total_cook_time =>
              Returned (mkResponse
                (SummaryJson query_name total_cook_time base_ingredients_dict) 200)
          | Raise e => Raised e
          | TooDeep => Raised RecursionError
          end
      end
  end.

(** ** Vocabulary of the statements *)

(** *** Stores *)

(** The stores the running program can hold: the empty list the module
    starts with, and whatever a call of [create_entry] leaves behind. *)
Inductive reachable : Cookbook -> Prop :=
| reachable_empty : reachable []
| reachable_create cookbook payload :
    reachable cookbook -> reachable (create_entry cookbook payload).1.

(** No two entries of the store share a name. *)
Definition unique_names (cookbook : Cookbook) : Prop :=
  NoDup (entry_name <$> cookbook).

(** A payload that passes the three checks that precede the name check:
    a valid type, [requiredItems] present for a recipe, [cookTime] present
    and not negative for an ingredient. *)
Definition passes_field_checks (payload : Payload) : Prop :=
  (p_type payload = Some "recipe" ∧ is_Some (p_requiredItems payload)) ∨
  (p_type payload = Some "ingredient" ∧ ∃ c, p_cookTime payload = Some c ∧ 0 <= c).

(** *** The expansion tree of a recipe

    Following the words of the specification: the leaves of the tree
    obtained by replacing every recipe reference by its required items
    until only base ingredients remain. A leaf is recorded with the
    quantities met on the way down to it, outermost first. *)
Inductive expansion (cookbook : Cookbook)
  : list RequiredItem -> list (string * list Z) -> Prop :=
| expansion_nil : expansion cookbook [] []
| expansion_ingredient item rest i leaves :
    find_entry cookbook (ri_name item) = Some (EIngredient i) ->
    expansion cookbook rest leaves ->
    expansion cookbook (item :: rest)
      ((ri_name item, [ri_quantity item]) :: leaves)
| expansion_recipe item rest r sub leaves :
    find_entry cookbook (ri_name item) = Some (ERecipe r) ->
    expansion cookbook (required_items r) sub ->
    expansion cookbook rest leaves ->
    expansion cookbook (item :: rest)
      ((prod_map id (cons (ri_quantity item)) <$> sub) ++ leaves).

(** The product of the quantities along a path. *)
Definition path_product (path : list Z) : Z := foldr Z.mul 1 path.

(** The sum, over the leaves named [name], of the path products. *)
Fixpoint leaf_sum (name : string) (leaves : list (string * list Z)) : Z :=
  match leaves with
  | [] => 0
  | (n, path) :: rest =>
      (if bool_decide (n = name) then path_product path else 0)
      + leaf_sum name rest
  end.

(** The mapping the specification asks for: a key per leaf name, with the
    summed path products as its value. *)
Definition flattened (leaves : list (string * list Z)) (name : string) : option Z :=
  if bool_decide (name ∈ leaves.*1) then Some (leaf_sum name leaves) else None.

(** The leaves with their paths multiplied out, under a multiplier. *)
Definition weigh (multiplier : Z) (leaves : list (string * list Z))
  : list (string * Z) :=
  (fun leaf => (leaf.1, multiplier * path_product leaf.2)) <$> leaves.

(** The sum of the values paired with [name]. *)
Fixpoint weight_sum (name : string) (pairs : list (string * Z)) : Z :=
  match pairs with
  | [] => 0
  | (n, v) :: rest =>
      (if bool_decide (n = name) then v else 0) + weight_sum name rest
  end.

(** *** The requirement-reference graph *)

(** [name] refers to [name'] when the stored entry found under [name] is a
    recipe that lists [name'] among its required items. *)
Definition refers (cookbook : Cookbook) (name name' : string) : Prop :=
  ∃ r, find_entry cookbook name = Some (ERecipe r) ∧
       name' ∈ ri_name <$> required_items r.

(** The names the expansion of a recipe with these required items can get
    to. *)
Definition reaches (cookbook : Cookbook) (items : list RequiredItem)
  (name : string) : Prop :=
  ∃ first, first ∈ ri_name <$> items ∧ rtc (refers cookbook) first name.

Definition acyclic (cookbook : Cookbook) : Prop :=
  ∀ name, ¬ tc (refers cookbook) name name.

(** The graph that can be reached from the required items has a cycle. *)
Definition reaches_cycle (cookbook : Cookbook) (items : list RequiredItem) : Prop :=
  ∃ name, reaches cookbook items name ∧ tc (refers cookbook) name name.

(** Every name that can be reached from the required items has an entry. *)
Definition all_present (cookbook : Cookbook) (items : list RequiredItem) : Prop :=
  ∀ name, reaches cookbook items name -> is_Some (find_entry cookbook name).

(** Each name of the list refers to the next one. *)
Fixpoint linked (cookbook : Cookbook) (names : list string) : Prop :=
  match names with
  | name :: (next :: _) as rest => refers cookbook name next ∧ linked cookbook rest
  | _ => True
  end.

(** The depth-first walk over [items] completes without meeting a name
    that has no entry. *)
Inductive completes (cookbook : Cookbook) : list RequiredItem -> Prop :=
| completes_nil : completes cookbook []
| completes_ingredient item rest i :
    find_entry cookbook (ri_name item) = Some (EIngredient i) ->
    completes cookbook rest ->
    completes cookbook (item :: rest)
| completes_recipe item rest r :
    find_entry cookbook (ri_name item) = Some (ERecipe r) ->
    completes cookbook (required_items r) ->
    completes cookbook rest ->
    completes cookbook (item :: rest).

(** The depth-first walk over [items] gets to a required item whose name
    has no entry: the item itself, one below it, or one after it once the
    item is done. *)
Inductive meets_missing (cookbook : Cookbook) : list RequiredItem -> Prop :=
| meets_here item rest :
    find_entry cookbook (ri_name item) = None ->
    meets_missing cookbook (item :: rest)
| meets_below item rest r :
    find_entry cookbook (ri_name item) = Some (ERecipe r) ->
    meets_missing cookbook (required_items r) ->
    meets_missing cookbook (item :: rest)
| meets_later item rest :
    completes cookbook [item] ->
    meets_missing cookbook rest ->
    meets_missing cookbook (item :: rest).

(** *** The error taxonomy of the specification *)

Inductive ErrorKind :=
| InvalidType
| MissingField
| InvalidCookTime
| DuplicateName
| DuplicateRequiredItem
| NotFound
| WrongType
| MissingDependency.

Global Instance ErrorKind_eq_dec : EqDecision ErrorKind.
Proof. solve_decision. Defined.

(** The rejections the two handlers can return, each with the kind of the
    taxonomy it stands for. An absent [type] is filed under [InvalidType]:
    nothing is declared, so nothing valid is. *)
Definition rejections : list (ErrorKind * string) :=
  [ (InvalidType, msg_type_missing);
    (InvalidType, msg_invalid_type);
    (MissingField, msg_missing_required_items);
    (InvalidCookTime, msg_invalid_cook_time);
    (DuplicateName, msg_duplicate_name);
    (DuplicateRequiredItem, msg_duplicate_required_item);
    (NotFound, msg_not_found);
    (WrongType, msg_wrong_type);
    (MissingDependency, msg_missing_dependency) ].

(** The response the code gives for a rejection of the table. *)
Definition rejection_response (entry : ErrorKind * string) : Response :=
  error_400 entry.2.

(** *** Cook time *)

(** The cook time stored for an ingredient name. *)
Definition stored_cook_time (cookbook : Cookbook) (name : string) : Z :=
  match find_entry cookbook name with
  | Some (EIngredient i) => cook_time i
  | _ => 0
  end.

(** [name] is the name of a stored base ingredient. *)
Definition stored_ingredient (cookbook : Cookbook) (name : string) : Prop :=
  ∃ i, find_entry cookbook name = Some (EIngredient i).

(** Every key of [d] is the name of a stored base ingredient. *)
Definition ingredient_keys (cookbook : Cookbook) (d : gmap string Z) : Prop :=
  ∀ name, is_Some (d !! name) -> stored_ingredient cookbook name.

(** The sum of [cookTime * quantity] over the pairs of a mapping. *)
Definition cook_time_sum (cookbook : Cookbook) (items : list (string * Z)) : Z :=
  foldr (fun kv acc => stored_cook_time cookbook kv.1 * kv.2 + acc) 0 items.

(** *** Running examples *)

Definition flour : CookbookEntry := EIngredient (mkIngredient "Flour" 1).
Definition dough : Recipe := mkRecipe "Dough" [mkRequiredItem "Flour" 2].
Definition bread : Recipe := mkRecipe "Bread" [mkRequiredItem "Dough" 3].
Definition cake : Recipe :=
  mkRecipe "Cake" [mkRequiredItem "Flour" 1; mkRequiredItem "Dough" 1].
Definition bakery : Cookbook := [flour; ERecipe dough; ERecipe bread; ERecipe cake].
Definition salt_payload : Payload :=
  mkPayload (Some "ingredient") (Some "Salt") (Some 1) None.
Definition salt_negative_payload : Payload :=
  mkPayload (Some "ingredient") (Some "Salt") (Some (-1)) None.
Definition salt_no_cook_time_payload : Payload :=
  mkPayload (Some "ingredient") (Some "Salt") None None.
Definition nameless_payload : Payload :=
  mkPayload (Some "ingredient") None (Some 0) None.
Definition lunch_payload (quantity : Z) : Payload :=
  mkPayload (Some "recipe") (Some "Lunch") None
    (Some [mkRequiredItemPayload (Some "Salt") (Some quantity)]).
Definition chicken : Recipe := mkRecipe "Chicken" [mkRequiredItem "Egg" 1].
Definition egg : Recipe := mkRecipe "Egg" [mkRequiredItem "Chicken" 1].
Definition omelette : Recipe :=
  mkRecipe "Omelette" [mkRequiredItem "Butter" 1; mkRequiredItem "Egg" 2].
Definition farm : Cookbook := [ERecipe chicken; ERecipe egg; ERecipe omelette].
Definition egg_first_omelette : Recipe :=
  mkRecipe "Omelette" [mkRequiredItem "Egg" 2; mkRequiredItem "Butter" 1].
Definition bakery_rank (name : string) : nat :=
  if String.eqb name "Dough" then 1
  else if String.eqb name "Bread" then 2
  else if String.eqb name "Cake" then 2
  else 0.
Definition soup : Recipe :=
  mkRecipe "Soup" [mkRequiredItem "Flour" 1; mkRequiredItem "Salt" 2].

(** ** [parse_handwriting] and the [/parse] helper

    A Python [str] is read here as its list of characters, for characters
    below U+0100 ([ascii] holds the code point). The regular expressions
    are compiled for [str], so [\s] is Unicode white space: below U+0100
    these are U+0009..U+000D, U+001C..U+0020, U+0085 and U+00A0. *)

(** [ord(c)] *)
Definition code (c : ascii) : Z := Z.of_N (N_of_ascii c).

(** [chr(n)], for [n] below 256. *)
Definition chr (n : Z) : ascii := ascii_of_N (Z.to_N n).

(** [c.isspace()], which is what [\s] matches. *)
Definition is_space (c : ascii) : bool :=
  ((9 <=? code c) && (code c <=? 13)) || ((28 <=? code c) && (code c <=? 32))
  || (code c =? 133) || (code c =? 160).

Definition is_upper (c : ascii) : bool := (65 <=? code c) && (code c <=? 90).
Definition is_lower (c : ascii) : bool := (97 <=? code c) && (code c <=? 122).

(** The class [[A-Za-z]]. *)
Definition is_letter (c : ascii) : bool := is_upper c || is_lower c.

(** The class [[\s_-]]. *)
Definition is_separator (c : ascii) : bool :=
  is_space c || (code c =? 95) || (code c =? 45).

(** The class [[A-Za-z ]], whose complement the second substitution
    deletes. *)
Definition is_kept (c : ascii) : bool := is_letter c || (code c =? 32).

Definition to_upper (c : ascii) : ascii :=
  if is_lower c then chr (code c - 32) else c.
Definition to_lower (c : ascii) : ascii :=
  if is_upper c then chr (code c + 32) else c.

(** [re.sub(r'[\s_-]+', " ", s)]: every maximal run of separators becomes
    one space. [in_run] tells that the previous character was one. *)
Fixpoint sub_separators (s : list ascii) (in_run : bool) : list ascii :=
  match s with
  | [] => []
  | c :: rest =>
      if is_separator c
      then (if in_run then sub_separators rest true
            else " "%char :: sub_separators rest true)
      else c :: sub_separators rest false
  end.

(** [re.sub(r'[^A-Za-z ]+', "", s)]: every character outside the class is
    deleted. *)
Definition sub_non_letters (s : list ascii) : list ascii := List.filter is_kept s.

(** [s.title()] on strings of letters and spaces (the only ones it is
    called on here, where the cased characters are the letters): a letter
    after a letter is lowered, any other letter is raised. *)
Fixpoint title_from (previous_is_cased : bool) (s : list ascii) : list ascii :=
  match s with
  | [] => []
  | c :: rest =>
      (if previous_is_cased then to_lower c else to_upper c)
      :: title_from (is_letter c) rest
  end.

Definition title (s : list ascii) : list ascii := title_from false s.

Fixpoint lstrip (s : list ascii) : list ascii :=
  match s with
  | [] => []
  | c :: rest => if is_space c then lstrip rest else s
  end.

Definition rstrip (s : list ascii) : list ascii := rev (lstrip (rev s)).

(** [s.strip()] *)
Definition strip (s : list ascii) : list ascii := rstrip (lstrip s).

(** Lines 58-62 on the characters of the name. *)
Definition parse_characters (raw_recipe_name : list ascii) : option (list ascii) :=
  let cleaned_name := sub_separators raw_recipe_name false in
  let cleaned_name := sub_non_letters cleaned_name in
  let cleaned_name := strip (title cleaned_name) in
  if (0 <? Z.of_nat (length cleaned_name)) then Some cleaned_name else None.

Definition parse_handwriting (raw_recipe_name : string) : option string :=
  String.string_of_list_ascii
    <$> parse_characters (String.list_ascii_of_string raw_recipe_name).

(** What [/parse] answers: a plain text or a JSON object with the one key
    ["msg"], and the status. *)
Inductive ParseBody :=
| PlainText (text : string)
| MsgJson (msg : string).

(** Lines 38-44; [input] is [payload.get('input')] when the key is there. *)
Definition parse (input : option string) : ParseBody * Z :=
  let raw_recipe_name := default "" input in
  match parse_handwriting raw_recipe_name with
  | None => (PlainText "Invalid recipe name", 400)
  | Some parsed_name => (MsgJson parsed_name, 200)
  end.

(** *** Vocabulary for names *)

(** The letters of a string, in order, all lowered. *)
Definition lowered_letters (s : list ascii) : list ascii :=
  List.map to_lower (List.filter is_letter s).

(** Every letter is upper case when it opens the string or follows a
    character that is no letter, and lower case when it follows a letter;
    [after_letter] tells what came before the string. *)
Fixpoint title_cased (after_letter : bool) (s : list ascii) : bool :=
  match s with
  | [] => true
  | c :: rest =>
      (if is_letter c then (if after_letter then is_lower c else is_upper c)
       else true)
      && title_cased (is_letter c) rest
  end.

(** A capital letter followed by lower-case letters. *)
Definition is_word (w : list ascii) : bool :=
  match w with
  | [] => false
  | c :: rest => is_upper c && forallb is_lower rest
  end.

(** The words with one space between each two. *)
Fixpoint join_words (words : list (list ascii)) : list ascii :=
  match words with
  | [] => []
  | [w] => w
  | w :: rest => w ++ " "%char :: join_words rest
  end.

(** A character that the second substitution deletes and that the first
    one does not take for a separator: a digit, a punctuation mark. *)
Definition is_deleted (c : ascii) : bool := negb (is_kept c) && negb (is_separator c).

(** *** Vocabulary for the handlers *)

(** The JSON object [{"name": ..., "quantity": ...}] of a required item. *)
Definition item_payload (item : RequiredItem) : RequiredItemPayload :=
  mkRequiredItemPayload (Some (ri_name item)) (Some (ri_quantity item)).

(** A result with its mapping, if there is one, changed by [f]. *)
Definition map_result {A B} (f : A -> B) (res : Result A) : Result B :=
  match res with
  | Ok a => Ok (f a)
  | Raise e => Raise e
  | TooDeep => TooDeep
  end.

(** Some stored recipe has that name. *)
Definition names_recipe (cookbook : Cookbook) (name : string) : Prop :=
  ∃ r, ERecipe r ∈ cookbook ∧ r_name r = name.

(** The cook times of all stored ingredients of that name, added up. *)
Fixpoint matching_cook_time (cookbook : Cookbook) (name : string) : Z :=
  match cookbook with
  | [] => 0
  | EIngredient i :: rest =>
      (if String.eqb (i_name i) name then cook_time i else 0)
      + matching_cook_time rest name
  | ERecipe _ :: rest => matching_cook_time rest name
  end.

(** The sum of [cook time * quantity] over pairs, every stored ingredient
    of the name counted. *)
Definition matching_cook_time_sum (cookbook : Cookbook)
  (items : list (string * Z)) : Z :=
  foldr (fun kv acc => matching_cook_time cookbook kv.1 * kv.2 + acc) 0 items.

(** The payload a client sends to register the entry [e]. *)
Definition entry_payload (e : CookbookEntry) : Payload :=
  match e with
  | ERecipe r =>
      mkPayload (Some "recipe") (Some (r_name r)) None
        (Some (item_payload <$> required_items r))
  | EIngredient i =>
      mkPayload (Some "ingredient") (Some (i_name i)) (Some (cook_time i)) None
  end.

(** What a stored entry has to satisfy. *)
Definition well_formed_entry (e : CookbookEntry) : Prop :=
  match e with
  | EIngredient i => 0 <= cook_time i
  | ERecipe r => NoDup (ri_name <$> required_items r)
  end.

(** * Properties *)

(** ** Lookups in the cookbook *)

Lemma find_entry_Some cookbook name e :
  find_entry cookbook name = Some e -> entry_name e = name ∧ e ∈ cookbook.
Proof.
  induction cookbook as [|c cookbook IH]; simpl; [done|].
  destruct (String.eqb_spec (entry_name c) name) as [Heq|Hne].
  - intros [= <-]. split; [done | left].
  - intros H. destruct (IH H) as [? ?]. split; [done | by right].
Qed.

Lemma find_entry_None cookbook name :
  find_entry cookbook name = None <-> name ∉ entry_name <$> cookbook.
Proof.
  induction cookbook as [|c cookbook IH]; simpl.
  - split; [intros _; apply not_elem_of_nil | done].
  - destruct (String.eqb_spec (entry_name c) name) as [Heq|Hne].
    + split; [done | intros H; exfalso; apply H; rewrite Heq; left].
    + rewrite IH, not_elem_of_cons. split; [by intros ? | by intros [_ ?]].
Qed.

Lemma find_entry_unique cookbook e :
  unique_names cookbook -> e ∈ cookbook ->
  find_entry cookbook (entry_name e) = Some e.
Proof.
  unfold unique_names. induction cookbook as [|c cookbook IH]; simpl.
  - intros _ H. by apply elem_of_nil in H.
  - intros Hnd Hin. apply NoDup_cons in Hnd as [Hfresh Hnd].
    destruct (String.eqb_spec (entry_name c) (entry_name e)) as [Heq|Hne].
    + apply elem_of_cons in Hin as [->|Hin]; [done|].
      exfalso. apply Hfresh. rewrite Heq. by apply list_elem_of_fmap_2.
    + apply elem_of_cons in Hin as [->|Hin]; [done | by apply IH].
Qed.

(** ** The dictionary accumulator *)

Section dict.
Implicit Types (d base sub : gmap string Z) (pairs : list (string * Z)).

Lemma dict_add_lookup d k v k' :
  dict_add d k v !! k' =
  if bool_decide (k = k') then Some (default 0 (d !! k) + v) else d !! k'.
Proof.
  unfold dict_add. case_bool_decide as H.
  - subst. by rewrite lookup_insert_eq.
  - by rewrite lookup_insert_ne.
Qed.

Lemma weight_sum_absent name pairs :
  name ∉ pairs.*1 -> weight_sum name pairs = 0.
Proof.
  induction pairs as [|[n v] pairs IH]; simpl; [done|].
  rewrite not_elem_of_cons. intros [Hne Hnot].
  rewrite bool_decide_eq_false_2 by congruence. rewrite IH by done. lia.
Qed.

Lemma weight_sum_one name v pairs :
  NoDup pairs.*1 -> (name, v) ∈ pairs -> weight_sum name pairs = v.
Proof.
  induction pairs as [|[n w] pairs IH]; simpl.
  - intros _ H. by apply elem_of_nil in H.
  - intros Hnd Hin. apply NoDup_cons in Hnd as [Hfresh Hnd].
    apply elem_of_cons in Hin as [[= <- <-]|Hin].
    + rewrite bool_decide_eq_true_2 by done.
      rewrite weight_sum_absent by done. lia.
    + rewrite bool_decide_eq_false_2.
      * rewrite IH by done. lia.
      * intros ->. apply Hfresh.
        change name with ((name, v).1). by apply list_elem_of_fmap_2.
Qed.

Lemma weight_sum_app name pairs pairs' :
  weight_sum name (pairs ++ pairs') =
  weight_sum name pairs + weight_sum name pairs'.
Proof.
  induction pairs as [|[n v] pairs IH]; simpl; [done|]. rewrite IH. lia.
Qed.

Lemma dict_add_all_lookup pairs d k :
  dict_add_all d pairs !! k =
  if bool_decide (k ∈ pairs.*1)
  then Some (default 0 (d !! k) + weight_sum k pairs)
  else d !! k.
Proof.
  revert d. induction pairs as [|[n v] pairs IH]; intros d.
  - rewrite bool_decide_eq_false_2; [done | apply not_elem_of_nil].
  - change (dict_add_all (dict_add d n v) pairs !! k = 
            if bool_decide (k ∈ n :: pairs.*1)
            then Some (default 0 (d !! k) +
                       ((if bool_decide (n = k) then v else 0) + weight_sum k pairs))
            else d !! k).
    rewrite IH, dict_add_lookup.
    destruct (decide (n = k)) as [->|Hne].
    + rewrite !(bool_decide_eq_true_2 (k = k)) by done.
      rewrite (bool_decide_eq_true_2 (k ∈ k :: _)) by left.
      case_bool_decide as Hin; simpl.
      * f_equal. lia.
      * rewrite weight_sum_absent by done. f_equal. lia.
    + rewrite !(bool_decide_eq_false_2 (n = k)) by done.
      case_bool_decide as Hin.
      * rewrite bool_decide_eq_true_2 by (by right). f_equal. 
      * rewrite bool_decide_eq_false_2; [done|].
        rewrite not_elem_of_cons. naive_solver.
Qed.

Lemma dict_add_all_app d pairs pairs' :
  dict_add_all d (pairs ++ pairs') = dict_add_all (dict_add_all d pairs) pairs'.
Proof. unfold dict_add_all. apply foldl_app. Qed.

Lemma dict_merge_lookup base sub k :
  dict_merge base sub !! k =
  match sub !! k with
  | Some v => Some (default 0 (base !! k) + v)
  | None => base !! k
  end.
Proof.
  unfold dict_merge. rewrite dict_add_all_lookup.
  destruct (sub !! k) as [v|] eqn:Hk.
  - apply elem_of_map_to_list in Hk.
    rewrite bool_decide_eq_true_2.
    + rewrite (weight_sum_one k v); [done | apply NoDup_fst_map_to_list | done].
    + change k with ((k, v).1). by apply list_elem_of_fmap_2.
  - rewrite bool_decide_eq_false_2; [done|].
    intros [[k' v] [-> Hin]]%list_elem_of_fmap.
    apply elem_of_map_to_list in Hin. simpl in *. congruence.
Qed.

(** Merging a dictionary built from pairs is adding the pairs. *)
Lemma dict_merge_add_all base pairs :
  dict_merge base (dict_add_all ∅ pairs) = dict_add_all base pairs.
Proof.
  apply map_eq. intros k.
  rewrite dict_merge_lookup, !dict_add_all_lookup, lookup_empty.
  case_bool_decide; simpl; [f_equal; lia | done].
Qed.

End dict.

(** ** The resolver computes the sums of the path products *)

Section resolver.
Variable cookbook : Cookbook.

Lemma weigh_prepend q multiplier sub :
  weigh multiplier (prod_map id (cons q) <$> sub) = weigh (q * multiplier) sub.
Proof.
  unfold weigh. rewrite <- list_fmap_compose. apply list_fmap_ext.
  intros _ [n path] _. simpl. f_equal. lia.
Qed.

Lemma weigh_app multiplier leaves leaves' :
  weigh multiplier (leaves ++ leaves')
  = weigh multiplier leaves ++ weigh multiplier leaves'.
Proof. unfold weigh. apply fmap_app. Qed.

Lemma weigh_fst multiplier leaves : (weigh multiplier leaves).*1 = leaves.*1.
Proof.
  unfold weigh. rewrite <- list_fmap_compose. by apply list_fmap_ext.
Qed.

Lemma weight_sum_weigh name multiplier leaves :
  weight_sum name (weigh multiplier leaves) = multiplier * leaf_sum name leaves.
Proof.
  induction leaves as [|[n path] leaves IH]; simpl; [lia|].
  rewrite IH. case_bool_decide; lia.
Qed.

(** The loop adds, for every leaf of the expansion tree, the product of the
    quantities on its path times the incoming multiplier. *)
Lemma loop_follows_expansion items leaves :
  expansion cookbook items leaves ->
  ∃ n0 : nat, ∀ fuel : nat, (n0 <= fuel)%nat -> ∀ multiplier base,
    get_base_ingredients_loop cookbook (get_base_ingredients fuel cookbook)
      items multiplier base
    = Ok (dict_add_all base (weigh multiplier leaves)).
Proof.
  induction 1 as [|item rest i leaves Hfind _ [n0 IH]
                  |item rest r sub leaves Hfind _ [n1 IH1] _ [n2 IH2]].
  - by exists 0%nat.
  - exists n0. intros fuel Hfuel multiplier base. simpl.
    rewrite Hfind, IH by done. do 2 f_equal.
    unfold path_product. simpl. f_equal. lia.
  - exists (Nat.max (S n1) n2). intros fuel Hfuel multiplier base. simpl.
    rewrite Hfind.
    destruct fuel as [|fuel]; [lia|].
    assert (get_base_ingredients (S fuel) cookbook r
              (ri_quantity item * multiplier)
            = Ok (dict_add_all ∅ (weigh (ri_quantity item * multiplier) sub)))
      as ->.
    { simpl. apply IH1. lia. }
    rewrite IH2 by lia. f_equal.
    by rewrite weigh_app, dict_add_all_app, weigh_prepend, dict_merge_add_all.
Qed.

Lemma add_all_empty_flattened multiplier leaves name :
  dict_add_all ∅ (weigh multiplier leaves) !! name
  = Z.mul multiplier <$> flattened leaves name.
Proof.
  rewrite dict_add_all_lookup, lookup_empty, weigh_fst, weight_sum_weigh.
  unfold flattened. by case_bool_decide.
Qed.

(** The same for any incoming multiplier: every total is scaled by it. *)
Lemma get_base_ingredients_scaled recipe leaves :
  expansion cookbook (required_items recipe) leaves ->
  ∃ n0 : nat, ∀ fuel : nat, (n0 <= fuel)%nat -> ∀ multiplier,
    ∃ d : gmap string Z,
      get_base_ingredients fuel cookbook recipe multiplier = Ok d ∧
      ∀ name, d !! name = Z.mul multiplier <$> flattened leaves name.
Proof.
  intros [n0 Hloop]%loop_follows_expansion.
  exists (S n0). intros [|fuel] Hfuel multiplier; [lia|].
  eexists. split; [simpl; apply Hloop; lia|].
  intros name. apply add_all_empty_flattened.
Qed.

(** C1. Whenever the expansion tree of the target exists (every name met
    has an entry and the tree is finite), [get_base_ingredients], called
    as [summary] calls it (multiplier 1), returns for every large enough
    recursion budget a dictionary that maps each leaf name to the sum,
    over all leaves of that name, of the product of the quantities along
    the path to the leaf, and has no other key. *)
Theorem resolve_sums_path_products recipe leaves :
  expansion cookbook (required_items recipe) leaves ->
  ∃ n0 : nat, ∀ fuel : nat, (n0 <= fuel)%nat ->
    ∃ d : gmap string Z,
      get_base_ingredients fuel cookbook recipe 1 = Ok d ∧
      ∀ name, d !! name = flattened leaves name.
Proof.
  intros [n0 Hscaled]%get_base_ingredients_scaled.
  exists n0. intros fuel Hfuel.
  destruct (Hscaled fuel Hfuel 1) as (d & Hd & Hlookup).
  exists d. split; [done|]. intros name. rewrite Hlookup.
  destruct (flattened leaves name) as [v|]; simpl; [|done].
  f_equal. lia.
Qed.

End resolver.

(** Bread requires 3 Dough, Dough requires 2 Flour: Flour is needed 6 times. *)
Lemma resolve_sums_path_products_bread :
  ∃ n0 : nat, ∀ fuel : nat, (n0 <= fuel)%nat ->
    ∃ d : gmap string Z,
      get_base_ingredients fuel bakery bread 1 = Ok d ∧
      ∀ name, d !! name = flattened [("Flour", [3; 2])] name.
Proof.
  apply (resolve_sums_path_products bakery bread [("Flour", [3; 2])]).
  apply (expansion_recipe bakery (mkRequiredItem "Dough" 3) [] dough
           [("Flour", [2])] []).
  - reflexivity.
  - apply (expansion_ingredient bakery (mkRequiredItem "Flour" 2) []
             (mkIngredient "Flour" 1) []).
    + reflexivity.
    + apply expansion_nil.
  - apply expansion_nil.
Defined.

(** ** Cook time of a flattened mapping *)

Section cook_time.
Variable cookbook : Cookbook.

Local Abbreviation stored_ingredient := (stored_ingredient cookbook).
Local Abbreviation ingredient_keys := (ingredient_keys cookbook).

Lemma ingredient_keys_add d name v :
  ingredient_keys d -> stored_ingredient name ->
  ingredient_keys (dict_add d name v).
Proof.
  intros Hd Hname k. rewrite dict_add_lookup.
  case_bool_decide as Hk; [by subst | apply Hd].
Qed.

Lemma ingredient_keys_merge base sub :
  ingredient_keys base -> ingredient_keys sub ->
  ingredient_keys (dict_merge base sub).
Proof.
  intros Hbase Hsub k. rewrite dict_merge_lookup.
  destruct (sub !! k) eqn:Hk; [intros _; apply Hsub; by rewrite Hk | apply Hbase].
Qed.

Lemma loop_ingredient_keys rec items multiplier :
  (∀ r m d, rec r m = Ok d -> ingredient_keys d) ->
  ∀ base d, ingredient_keys base ->
    get_base_ingredients_loop cookbook rec items multiplier base = Ok d ->
    ingredient_keys d.
Proof.
  intros Hrec. induction items as [|item rest IH]; intros base d Hbase; simpl.
  - by intros [= <-].
  - destruct (find_entry cookbook (ri_name item)) as [[r|i]|] eqn:Hfind; [| |done].
    + destruct (rec r (ri_quantity item * multiplier)) as [sub| |] eqn:Hsub;
        [|done|done].
      apply IH, ingredient_keys_merge; [done | by eapply Hrec].
    + apply IH, ingredient_keys_add; [done | by exists i].
Qed.

(** Every key of a resolved mapping names a stored base ingredient. *)
Lemma get_base_ingredients_keys fuel recipe multiplier d :
  get_base_ingredients fuel cookbook recipe multiplier = Ok d ->
  ingredient_keys d.
Proof.
  revert recipe multiplier d.
  induction fuel as [|fuel IH]; intros recipe multiplier d; simpl; [done|].
  apply loop_ingredient_keys; [apply IH|].
  intros k. rewrite lookup_empty. by intros [? ?].
Qed.

Lemma cook_time_scan_absent rest name quantity total :
  name ∉ entry_name <$> rest ->
  cook_time_scan rest name quantity total = Ok total.
Proof.
  induction rest as [|c rest IH]; simpl; [done|].
  rewrite not_elem_of_cons. intros [Hne Hnot].
  destruct (String.eqb_spec (entry_name c) name); [congruence | by apply IH].
Qed.

Lemma cook_time_scan_unique rest name i quantity total :
  NoDup (entry_name <$> rest) ->
  find_entry rest name = Some (EIngredient i) ->
  cook_time_scan rest name quantity total = Ok (total + cook_time i * quantity).
Proof.
  induction rest as [|c rest IH]; simpl; [done|].
  intros Hnd. apply NoDup_cons in Hnd as [Hfresh Hnd].
  destruct (String.eqb_spec (entry_name c) name) as [Heq|Hne].
  - intros [= ->]. apply cook_time_scan_absent. simpl in Heq. by rewrite <- Heq.
  - by apply IH.
Qed.

Lemma get_total_cook_time_loop_sum items total :
  unique_names cookbook ->
  (∀ kv, kv ∈ items -> stored_ingredient kv.1) ->
  get_total_cook_time_loop cookbook items total
  = Ok (total + cook_time_sum cookbook items).
Proof.
  intros Huniq. revert total.
  induction items as [|[name quantity] items IH]; intros total Hkeys; simpl.
  - f_equal. lia.
  - destruct (Hkeys (name, quantity)) as [i Hi]; [left|]. simpl in Hi.
    rewrite (cook_time_scan_unique _ _ i) by done.
    rewrite IH by (intros kv Hkv; apply Hkeys; by right).
    unfold stored_cook_time. rewrite Hi. f_equal. lia.
Qed.

(** C6. In a store without duplicate names, for the mapping [d] that a
    successful resolution returns, [get_total_cook_time] returns the sum
    over the pairs [(name, quantity)] of [d] of the cook time stored for
    [name] times [quantity]; every key of [d] is a stored ingredient, so
    that cook time is the one of the only entry under that name. For the
    empty mapping the result is exactly 0. *)
Theorem total_cook_time_is_weighted_sum fuel recipe multiplier d :
  unique_names cookbook ->
  get_base_ingredients fuel cookbook recipe multiplier = Ok d ->
  get_total_cook_time cookbook d = Ok (cook_time_sum cookbook (map_to_list d)) ∧
  (∀ name quantity, d !! name = Some quantity ->
     ∃ i, find_entry cookbook name = Some (EIngredient i) ∧
          stored_cook_time cookbook name = cook_time i) ∧
  get_total_cook_time cookbook ∅ = Ok 0.
Proof.
  intros Huniq Hd. apply get_base_ingredients_keys in Hd.
  split; [|split].
  - unfold get_total_cook_time.
    rewrite get_total_cook_time_loop_sum; [f_equal; lia | done |].
    intros [name quantity] Hin%elem_of_map_to_list. apply Hd. by exists quantity.
  - intros name quantity Hname.
    destruct (Hd name) as [i Hi]; [by exists quantity|].
    exists i. split; [done|]. unfold stored_cook_time. by rewrite Hi.
  - unfold get_total_cook_time. by rewrite map_to_list_empty.
Qed.

End cook_time.

(** Bread in the bakery: 6 Flour at cook time 1. *)
Lemma total_cook_time_is_weighted_sum_bread :
  get_total_cook_time bakery {["Flour" := 6]}
    = Ok (cook_time_sum bakery (map_to_list ({["Flour" := 6]} : gmap string Z))) ∧
  (∀ name quantity, ({["Flour" := 6]} : gmap string Z) !! name = Some quantity ->
     ∃ i, find_entry bakery name = Some (EIngredient i) ∧
          stored_cook_time bakery name = cook_time i) ∧
  get_total_cook_time bakery ∅ = Ok 0.
Proof.
  apply (total_cook_time_is_weighted_sum bakery 3%nat bread 1 {["Flour" := 6]}).
  - apply (bool_decide_unpack _). vm_compute. exact I.
  - vm_compute. reflexivity.
Defined.

(** ** The summary query *)

Section summary.
Variable cookbook : Cookbook.

Lemma find_recipe_entry_absent rest name acc :
  name ∉ entry_name <$> rest ->
  find_recipe_entry rest (Some name) acc = Next acc.
Proof.
  induction rest as [|c rest IH]; simpl; [done|].
  rewrite not_elem_of_cons. intros [Hne Hnot].
  rewrite bool_decide_eq_false_2 by congruence. by apply IH.
Qed.

(** With unique names the scan of [summary] selects the stored recipe. *)
Lemma find_recipe_entry_unique rest r acc :
  NoDup (entry_name <$> rest) -> ERecipe r ∈ rest ->
  find_recipe_entry rest (Some (r_name r)) acc = Next (Some r).
Proof.
  revert acc. induction rest as [|c rest IH]; intros acc; simpl.
  - intros _ H. by apply elem_of_nil in H.
  - intros Hnd Hin. apply NoDup_cons in Hnd as [Hfresh Hnd].
    apply elem_of_cons in Hin as [<-|Hin].
    + simpl. rewrite bool_decide_eq_true_2 by done.
      by apply find_recipe_entry_absent.
    + rewrite bool_decide_eq_false_2; [by apply IH|].
      intros [= Heq]. apply Hfresh. rewrite Heq.
      change (r_name r) with (entry_name (ERecipe r)).
      by apply list_elem_of_fmap_2.
Qed.

(** C10. In a store without duplicate names, the summary of a stored
    recipe with no required items succeeds for every recursion budget that
    allows the one call: status 200, an empty ingredient mapping and a
    cook time of exactly 0. *)
Theorem summary_of_empty_recipe fuel r :
  unique_names cookbook -> ERecipe r ∈ cookbook -> required_items r = [] ->
  summary (S fuel) cookbook (Some (r_name r))
  = Returned (mkResponse (SummaryJson (Some (r_name r)) 0 ∅) 200).
Proof.
  intros Huniq Hin Hempty. unfold summary.
  rewrite find_recipe_entry_unique by done. simpl. rewrite Hempty. simpl.
  unfold get_total_cook_time. by rewrite map_to_list_empty.
Qed.

Lemma completes_expansion items :
  completes cookbook items -> ∃ leaves, expansion cookbook items leaves.
Proof.
  induction 1 as [|item rest i Hfind _ [leaves IH]
                  |item rest r Hfind _ [sub IH1] _ [leaves IH2]].
  - eexists. constructor.
  - eexists. by eapply expansion_ingredient.
  - eexists. by eapply expansion_recipe.
Qed.

Lemma loop_app rec items items' multiplier base :
  get_base_ingredients_loop cookbook rec (items ++ items') multiplier base
  = match get_base_ingredients_loop cookbook rec items multiplier base with
    | Ok d => get_base_ingredients_loop cookbook rec items' multiplier d
    | other => other
    end.
Proof.
  revert base. induction items as [|item rest IH]; intros base; simpl; [done|].
  destruct (find_entry cookbook (ri_name item)) as [[r|i]|]; [|by rewrite IH|done].
  destruct (rec r (ri_quantity item * multiplier)); [by rewrite IH|done|done].
Qed.

(** The walk that gets to a missing name raises, whatever was gathered. *)
Lemma loop_meets_missing items :
  meets_missing cookbook items ->
  ∃ n0 : nat, ∀ fuel : nat, (n0 <= fuel)%nat -> ∀ multiplier base,
    get_base_ingredients_loop cookbook (get_base_ingredients fuel cookbook)
      items multiplier base
    = Raise (Exception msg_missing_dependency).
Proof.
  induction 1 as [item rest Hfind
                 |item rest r Hfind _ [n1 IH]
                 |item rest Hitem _ [n2 IH]].
  - exists 0%nat. intros fuel _ multiplier base. simpl. by rewrite Hfind.
  - exists (S n1). intros [|fuel] Hfuel multiplier base; [lia|].
    cbn [get_base_ingredients_loop]. rewrite Hfind.
    cbn [get_base_ingredients]. rewrite IH by lia. done.
  - apply completes_expansion in Hitem as [leaves Hleaves].
    apply loop_follows_expansion in Hleaves as [n1 Hdone].
    exists (Nat.max n1 n2). intros fuel Hfuel multiplier base.
    change (item :: rest) with ([item] ++ rest).
    rewrite loop_app, Hdone by lia. apply IH. lia.
Qed.

(** C4. When the depth-first expansion of a recipe gets to a required item
    whose name has no entry, [get_base_ingredients] raises the
    missing-dependency exception for every large enough recursion limit
    and any multiplier; and when the recipe is stored, in a store without
    duplicate names, [summary] on its name returns status 400 with that
    message and no mapping. *)
Theorem missing_dependency_fails recipe :
  meets_missing cookbook (required_items recipe) ->
  ∃ n0 : nat, ∀ fuel : nat, (n0 <= fuel)%nat ->
    (∀ multiplier,
       get_base_ingredients fuel cookbook recipe multiplier
       = Raise (Exception msg_missing_dependency)) ∧
    (unique_names cookbook -> ERecipe recipe ∈ cookbook ->
     summary fuel cookbook (Some (r_name recipe))
     = Returned (mkResponse (ErrorJson msg_missing_dependency) 400)).
Proof.
  intros [n0 Hloop]%loop_meets_missing.
  exists (S n0). intros [|fuel] Hfuel; [lia|].
  assert (∀ multiplier,
    get_base_ingredients (S fuel) cookbook recipe multiplier
    = Raise (Exception msg_missing_dependency)) as Hraise.
  { intros multiplier. simpl. apply Hloop. lia. }
  split; [done|].
  intros Huniq Hin. unfold summary.
  by rewrite find_recipe_entry_unique, Hraise.
Qed.

End summary.

(** A recipe with nothing to do, alone in the store. *)
Lemma summary_of_empty_recipe_water :
  summary 1 [ERecipe (mkRecipe "Water" [])] (Some "Water")
  = Returned (mkResponse (SummaryJson (Some "Water") 0 ∅) 200).
Proof.
  apply (summary_of_empty_recipe [ERecipe (mkRecipe "Water" [])] 0%nat
           (mkRecipe "Water" [])).
  - apply (bool_decide_unpack _). vm_compute. exact I.
  - apply (bool_decide_unpack _). vm_compute. exact I.
  - reflexivity.
Defined.

(** Soup needs Flour (stored) and then Salt (not stored): the query for
    Soup is answered 400. *)
Lemma missing_dependency_fails_soup :
  ∃ n0 : nat, ∀ fuel : nat, (n0 <= fuel)%nat ->
    (∀ multiplier,
       get_base_ingredients fuel (bakery ++ [ERecipe soup]) soup multiplier
       = Raise (Exception msg_missing_dependency)) ∧
    summary fuel (bakery ++ [ERecipe soup]) (Some "Soup")
    = Returned (mkResponse (ErrorJson msg_missing_dependency) 400).
Proof.
  destruct (missing_dependency_fails (bakery ++ [ERecipe soup]) soup)
    as [n0 Hfails].
  - apply meets_later.
    + apply (completes_ingredient _ (mkRequiredItem "Flour" 1) []
               (mkIngredient "Flour" 1)); [reflexivity | apply completes_nil].
    + apply meets_here. reflexivity.
  - exists n0. intros fuel Hfuel.
    destruct (Hfails fuel Hfuel) as [Hraise Hsummary].
    split; [exact Hraise|]. apply Hsummary.
    + apply (bool_decide_unpack _). vm_compute. exact I.
    + apply (bool_decide_unpack _). vm_compute. exact I.
Defined.

(** ** Admission of entries *)

Section admission.
Implicit Types (cookbook : Cookbook) (payload : Payload).

Lemma check_existing_used cookbook payload name :
  p_name payload = Some name -> name ∈ entry_name <$> cookbook ->
  check_existing cookbook payload
  = Stop (Returned (error_400 msg_duplicate_name)).
Proof.
  intros Hname. induction cookbook as [|c cookbook IH]; simpl.
  - intros H. by apply elem_of_nil in H.
  - rewrite Hname. simpl. intros Hin.
    destruct (String.eqb_spec (entry_name c) name) as [Heq|Hne]; [done|].
    apply elem_of_cons in Hin as [Heq|Hin]; [congruence | by apply IH].
Qed.

Lemma check_existing_fresh cookbook payload name :
  p_name payload = Some name ->
  check_existing cookbook payload = Next tt ->
  name ∉ entry_name <$> cookbook.
Proof.
  intros Hname. induction cookbook as [|c cookbook IH]; simpl.
  - intros _. apply not_elem_of_nil.
  - rewrite Hname. simpl.
    destruct (String.eqb_spec (entry_name c) name) as [Heq|Hne]; [done|].
    intros H. apply not_elem_of_cons. split; [congruence | by apply IH].
Qed.

(** What a successful run of the handler body has gone through. *)
Lemma create_entry_steps_Next cookbook payload cookbook' :
  create_entry_steps cookbook payload = Next cookbook' ->
  check_existing cookbook payload = Next tt ∧
  ((∃ name items built,
      p_type payload = Some "recipe" ∧ p_name payload = Some name ∧
      p_requiredItems payload = Some items ∧
      build_required_items items = Next built ∧
      validate_required_items built = false ∧
      cookbook' = cookbook ++ [ERecipe (mkRecipe name built)]) ∨
   (∃ name c,
      p_type payload = Some "ingredient" ∧ p_name payload = Some name ∧
      p_cookTime payload = Some c ∧ 0 <= c ∧
      cookbook' = cookbook ++ [EIngredient (mkIngredient name c)])).
Proof.
  unfold create_entry_steps.
  destruct payload as [[ty|] name cookTime requiredItems]; simpl; [|done].
  destruct (String.eqb_spec ty "recipe") as [->|Hnr]; simpl.
  - destruct requiredItems as [items|]; simpl; [|done].
    destruct (check_existing _ _) as [[]|]; simpl; [|done].
    destruct (build_required_items items) as [built|] eqn:Hbuilt; simpl; [|done].
    destruct (validate_required_items built) eqn:Hvalid; simpl; [done|].
    destruct name as [name|]; simpl; [|done].
    intros [= <-]. split; [done|]. left. by exists name, items, built.
  - destruct (String.eqb_spec ty "ingredient") as [->|Hni]; simpl; [|done].
    destruct cookTime as [c|]; simpl; [|done].
    destruct (Z.ltb_spec c 0); simpl; [done|].
    destruct (check_existing _ _) as [[]|]; simpl; [|done].
    destruct name as [name|]; simpl; [|done].
    intros [= <-]. split; [done|]. right. by exists name, c.
Qed.

(** The handler changes the store only when it answers 200, and then by
    appending one entry under the payload's name. *)
Lemma create_entry_store cookbook payload :
  (create_entry cookbook payload).1 = cookbook ∨
  ∃ e, (create_entry cookbook payload).1 = cookbook ++ [e] ∧
       p_name payload = Some (entry_name e) ∧
       check_existing cookbook payload = Next tt.
Proof.
  unfold create_entry.
  destruct (create_entry_steps cookbook payload) as [cookbook'|o] eqn:Hsteps;
    [|by left].
  right. apply create_entry_steps_Next in Hsteps
    as [Hfresh [(name & items & built & _ & Hname & _ & _ & _ & ->)
               |(name & c & _ & Hname & _ & _ & ->)]]; by eexists.
Qed.

Lemma create_entry_unique cookbook payload :
  unique_names cookbook -> unique_names (create_entry cookbook payload).1.
Proof.
  intros Huniq.
  destruct (create_entry_store cookbook payload) as [->|(e & -> & Hname & Hfresh)];
    [done|].
  unfold unique_names. rewrite fmap_app. simpl.
  apply NoDup_app. split; [done|]. split.
  - intros x Hx [->|[]%elem_of_nil]%elem_of_cons.
    by eapply check_existing_fresh.
  - apply NoDup_singleton.
Qed.

Lemma reachable_unique cookbook : reachable cookbook -> unique_names cookbook.
Proof.
  induction 1 as [|cookbook payload _ IH].
  - apply NoDup_nil_2.
  - by apply create_entry_unique.
Qed.

Lemma create_entry_used_name cookbook payload name :
  p_name payload = Some name -> name ∈ entry_name <$> cookbook ->
  (create_entry cookbook payload).1 = cookbook ∧
  (passes_field_checks payload ->
   (create_entry cookbook payload).2
   = Returned (error_400 msg_duplicate_name)).
Proof.
  intros Hname Hin.
  pose proof (check_existing_used _ _ _ Hname Hin) as Hdup. split.
  - destruct (create_entry_store cookbook payload) as [->|(e & _ & _ & Hfresh)];
      [done | congruence].
  - unfold create_entry, create_entry_steps.
    intros [[Hty [items Hitems]]|[Hty (c & Hc & Hpos)]];
      rewrite Hty; simpl.
    + rewrite Hitems. simpl. by rewrite Hdup.
    + rewrite Hc. simpl. destruct (Z.ltb_spec c 0); [lia|]. simpl.
      by rewrite Hdup.
Qed.

End admission.

(** C2 (as amended). For every store the program can hold and every further
    call of [create_entry]: no two entries share a name, before or after
    the call; a payload whose name is already used never changes the store;
    and when that payload passes the checks made before the name check
    (valid type, [requiredItems] present for a recipe, [cookTime] present
    and not negative for an ingredient) the answer is the duplicate-name
    rejection. *)
Theorem names_unique_and_used_name_rejected cookbook payload :
  reachable cookbook ->
  unique_names cookbook ∧
  unique_names (create_entry cookbook payload).1 ∧
  ∀ name, p_name payload = Some name -> name ∈ entry_name <$> cookbook ->
    (create_entry cookbook payload).1 = cookbook ∧
    (passes_field_checks payload ->
     (create_entry cookbook payload).2
     = Returned (error_400 msg_duplicate_name)).
Proof.
  intros Hreach%reachable_unique. split; [done|]. split.
  - by apply create_entry_unique.
  - intros name. apply create_entry_used_name.
Qed.

(** Salt registered twice: the second call is refused, the store keeps its
    one entry. *)
Lemma names_unique_and_used_name_rejected_salt :
  unique_names [EIngredient (mkIngredient "Salt" 1)] ∧
  create_entry [EIngredient (mkIngredient "Salt" 1)] salt_payload
  = ([EIngredient (mkIngredient "Salt" 1)],
     Returned (error_400 msg_duplicate_name)).
Proof.
  destruct (names_unique_and_used_name_rejected
              (create_entry [] salt_payload).1 salt_payload
              (reachable_create [] salt_payload reachable_empty))
    as (Huniq & _ & Hused).
  split; [exact Huniq|].
  assert ("Salt" ∈ entry_name <$> (create_entry [] salt_payload).1) as Hin.
  { apply (bool_decide_unpack _). vm_compute. exact I. }
  destruct (Hused "Salt" eq_refl Hin) as [Hstore Hdup].
  rewrite (surjective_pairing (create_entry _ _)).
  apply pair_equal_spec. split; [exact Hstore|].
  apply Hdup. right. split; [reflexivity|]. exists 1. split; [reflexivity | lia].
Defined.

(** C2, as stated, fails: a used name with a negative cook time is refused
    for the cook time, the check that comes first. *)
Lemma used_name_not_always_duplicate_name :
  ¬ (∀ cookbook payload name,
       reachable cookbook ->
       p_name payload = Some name -> name ∈ entry_name <$> cookbook ->
       (create_entry cookbook payload).2
       = Returned (error_400 msg_duplicate_name)).
Proof.
  intros Hclaim.
  specialize (Hclaim (create_entry [] salt_payload).1 salt_negative_payload "Salt"
                (reachable_create [] salt_payload reachable_empty) eq_refl).
  assert ("Salt" ∈ entry_name <$> (create_entry [] salt_payload).1) as Hin.
  { apply (bool_decide_unpack _). vm_compute. exact I. }
  specialize (Hclaim Hin). vm_compute in Hclaim. discriminate Hclaim.
Qed.

(** C3. What the [cookTime] test of [create_entry] does with a payload
    declared as an ingredient: without a [cookTime] field the subscript
    raises [KeyError] and no response is returned; with a negative value
    the invalid-cook-time rejection is returned; with any other value
    (0 included) the test is passed. The store is unchanged in the first
    two cases. *)
Theorem cook_time_check cookbook payload :
  p_type payload = Some "ingredient" ->
  match p_cookTime payload with
  | None =>
      create_entry cookbook payload = (cookbook, Raised (KeyError "cookTime"))
  | Some c =>
      if c <? 0
      then create_entry cookbook payload
           = (cookbook, Returned (error_400 msg_invalid_cook_time))
      else (create_entry cookbook payload).2
             ≠ Returned (error_400 msg_invalid_cook_time) ∧
           (create_entry cookbook payload).2 ≠ Raised (KeyError "cookTime")
  end.
Proof.
  intros Hty. unfold create_entry, create_entry_steps. rewrite Hty. simpl.
  destruct (p_cookTime payload) as [c|]; simpl; [|done].
  destruct (c <? 0); simpl; [done|].
  destruct (check_existing cookbook payload) as [[]|o] eqn:Hexisting; simpl.
  - destruct (p_name payload); simpl; by split.
  - assert (o = Returned (error_400 msg_duplicate_name) ∨ o = Raised (KeyError "name"))
      as [->| ->]; [|by split..].
    clear Hty. induction cookbook as [|e cookbook IH]; simpl in Hexisting; [done|].
    destruct (p_name payload) as [name|]; simpl in Hexisting; [|right; congruence].
    destruct (String.eqb (entry_name e) name); [left; congruence | by apply IH].
Qed.

(** An ingredient payload without [cookTime] escapes as a [KeyError]. *)
Lemma cook_time_check_absent :
  create_entry [] salt_no_cook_time_payload = ([], Raised (KeyError "cookTime")).
Proof. exact (cook_time_check [] salt_no_cook_time_payload eq_refl). Defined.

(** C9. There is a payload with a valid type that passes the field checks
    and has no ["name"]: for it, in every store, [create_entry] lets the
    [KeyError] of [payload["name"]] escape and returns no response. *)
Theorem missing_name_raises_key_error :
  ∃ payload,
    passes_field_checks payload ∧ p_name payload = None ∧
    ∀ cookbook,
      create_entry cookbook payload = (cookbook, Raised (KeyError "name")).
Proof.
  exists nameless_payload. split; [|split].
  - right. split; [done|]. exists 0. by split.
  - done.
  - by intros [|e cookbook].
Qed.

Lemma build_required_items_fields items built :
  build_required_items items = Next built ->
  Some <$> (ri_name <$> built) = p_item_name <$> items ∧
  Some <$> (ri_quantity <$> built) = p_item_quantity <$> items.
Proof.
  revert built. induction items as [|[[name|] [quantity|]] items IH];
    intros built; simpl; try done.
  - by intros [= <-].
  - destruct (build_required_items items) as [built'|]; simpl; [|done].
    intros [= <-]. destruct (IH built' eq_refl) as [Hn Hq].
    split; simpl; f_equal; [exact Hn | exact Hq].
Qed.

(** ** The rejections and what tells them apart *)

Section rejections.

Ltac in_rejections :=
  eexists _, _; split; [|reflexivity]; unfold rejections;
  repeat first [apply list_elem_of_here | apply list_elem_of_further].

Lemma check_existing_Stop cookbook payload o :
  check_existing cookbook payload = Stop o ->
  o = Returned (error_400 msg_duplicate_name) ∨ o = Raised (KeyError "name").
Proof.
  induction cookbook as [|e cookbook IH]; simpl; [done|].
  destruct (p_name payload) as [name|]; simpl; [|right; congruence].
  destruct (String.eqb (entry_name e) name); [left; congruence | done].
Qed.

Lemma build_required_items_Stop items o :
  build_required_items items = Stop o -> ∃ key, o = Raised (KeyError key).
Proof.
  induction items as [|[[name|] [quantity|]] items IH]; simpl; try done.
  - destruct (build_required_items items); simpl; [done|].
    intros [= ->]. by apply IH.
  - intros [= <-]. by eexists.
  - intros [= <-]. by eexists.
  - intros [= <-]. by eexists.
Qed.

Lemma create_entry_returned cookbook payload r :
  (create_entry cookbook payload).2 = Returned r ->
  r = mkResponse EmptyBody 200 ∨
  ∃ kind msg, (kind, msg) ∈ rejections ∧ r = error_400 msg.
Proof.
  unfold create_entry.
  destruct (create_entry_steps cookbook payload) as [cookbook'|o] eqn:Hsteps;
    simpl; [intros [= <-]; by left|].
  intros ->. right. revert Hsteps. unfold create_entry_steps.
  destruct (p_type payload) as [ty|]; simpl; [|intros [= <-]; in_rejections].
  destruct (String.eqb_spec ty "recipe") as [->|Hnr]; simpl.
  - destruct (p_requiredItems payload) as [items|]; simpl;
      [|intros [= <-]; in_rejections].
    destruct (check_existing cookbook payload) as [[]|o] eqn:Hexisting; simpl.
    + destruct (build_required_items items) as [built|o] eqn:Hbuilt; simpl.
      * destruct (validate_required_items built); simpl;
          [intros [= <-]; in_rejections|].
        by destruct (p_name payload).
      * intros [= ->]. by apply build_required_items_Stop in Hbuilt as [key ?].
    + intros [= ->].
      apply check_existing_Stop in Hexisting as [[= ->]|?]; [in_rejections | done].
  - destruct (String.eqb_spec ty "ingredient") as [->|Hni]; simpl;
      [|intros [= <-]; in_rejections].
    destruct (p_cookTime payload) as [c|]; simpl; [|done].
    destruct (c <? 0); simpl; [intros [= <-]; in_rejections|].
    destruct (check_existing cookbook payload) as [[]|o] eqn:Hexisting; simpl.
    + by destruct (p_name payload).
    + intros [= ->].
      apply check_existing_Stop in Hexisting as [[= ->]|?]; [in_rejections | done].
Qed.

Lemma loop_raise cookbook rec items multiplier base e :
  (∀ r m e', rec r m = Raise e' -> e' = Exception msg_missing_dependency) ->
  get_base_ingredients_loop cookbook rec items multiplier base = Raise e ->
  e = Exception msg_missing_dependency.
Proof.
  intros Hrec. revert base. induction items as [|item rest IH]; intros base; simpl.
  - done.
  - destruct (find_entry cookbook (ri_name item)) as [[r|i]|];
      [|apply IH|congruence].
    destruct (rec r (ri_quantity item * multiplier)) as [sub|e'|] eqn:Hsub;
      [apply IH| |done].
    intros [= <-]. by eapply Hrec.
Qed.

(** The only exception the resolver raises is the missing dependency. *)
Lemma get_base_ingredients_raise fuel cookbook recipe multiplier e :
  get_base_ingredients fuel cookbook recipe multiplier = Raise e ->
  e = Exception msg_missing_dependency.
Proof.
  revert recipe multiplier e.
  induction fuel as [|fuel IH]; intros recipe multiplier e; simpl; [done|].
  apply loop_raise. apply IH.
Qed.

Lemma find_recipe_entry_Stop cookbook query_name acc o :
  find_recipe_entry cookbook query_name acc = Stop o ->
  o = Returned (error_400 msg_wrong_type).
Proof.
  revert acc. induction cookbook as [|e cookbook IH]; intros acc; simpl; [done|].
  case_bool_decide; [|apply IH].
  destruct e; [apply IH | congruence].
Qed.

Lemma summary_returned fuel cookbook query_name r :
  summary fuel cookbook query_name = Returned r ->
  (∃ total d, r = mkResponse (SummaryJson query_name total d) 200) ∨
  (∃ kind msg, (kind, msg) ∈ rejections ∧ r = error_400 msg) ∨
  r = error_400 (exn_str RecursionError).
Proof.
  unfold summary.
  destruct (find_recipe_entry cookbook query_name None) as [[recipe|]|o] eqn:Hfind.
  - destruct (get_base_ingredients fuel cookbook recipe 1) as [d|e|] eqn:Hd.
    + destruct (get_total_cook_time cookbook d) as [total| |]; [|done|done].
      intros [= <-]. left. by eexists _, _.
    + apply get_base_ingredients_raise in Hd as ->.
      intros [= <-]. right. left. in_rejections.
    + intros [= <-]. by right; right.
  - intros [= <-]. right. left. in_rejections.
  - apply find_recipe_entry_Stop in Hfind as ->.
    intros [= <-]. right. left. in_rejections.
Qed.

Lemma rejections_not_recursion kind msg :
  (kind, msg) ∈ rejections -> msg ≠ exn_str RecursionError.
Proof.
  assert (Forall (fun entry : ErrorKind * string =>
            entry.2 ≠ exn_str RecursionError) rejections) as Hall.
  { apply (bool_decide_unpack _). vm_compute. exact I. }
  intros Hin. rewrite Forall_forall in Hall. exact (Hall _ Hin).
Qed.

Lemma rejections_messages_distinct kind1 msg1 kind2 msg2 :
  (kind1, msg1) ∈ rejections -> (kind2, msg2) ∈ rejections ->
  kind1 ≠ kind2 -> msg1 ≠ msg2.
Proof.
  assert (Forall (fun e1 => Forall (fun e2 : ErrorKind * string =>
            e1.1 ≠ e2.1 -> e1.2 ≠ e2.2) rejections) rejections) as Hall.
  { apply (bool_decide_unpack _). vm_compute. exact I. }
  intros H1 H2.
  rewrite Forall_forall in Hall. specialize (Hall _ H1).
  rewrite Forall_forall in Hall. exact (Hall _ H2).
Qed.

(** Each rejection of the table is returned on some input. *)
Lemma rejections_all_returned :
  Forall (fun entry =>
    (∃ cookbook payload,
       (create_entry cookbook payload).2 = Returned (rejection_response entry)) ∨
    (∃ fuel cookbook query_name,
       summary fuel cookbook query_name = Returned (rejection_response entry)))
    rejections.
Proof.
  unfold rejections. repeat apply Forall_cons_2; [..|apply Forall_nil_2].
  - left. by exists [], (mkPayload None None None None).
  - left. by exists [], (mkPayload (Some "dish") None None None).
  - left. by exists [], (mkPayload (Some "recipe") (Some "Lunch") None None).
  - left. by exists [], salt_negative_payload.
  - left. by exists [EIngredient (mkIngredient "Salt" 1)], salt_payload.
  - left. by exists [], (mkPayload (Some "recipe") (Some "Mash") None
      (Some [mkRequiredItemPayload (Some "potato") (Some 1);
             mkRequiredItemPayload (Some "potato") (Some 2)])).
  - right. by exists 1%nat, [], (Some "Flour").
  - right. by exists 1%nat, [flour], (Some "Flour").
  - right. by exists 2%nat, [ERecipe soup], (Some "Soup").
Qed.

(** C5 (as amended). Every rejection that [create_entry] or [summary]
    returns has status 400 and a JSON object with the one key ["error"]:
    it is one of the table, or, for [summary] alone, the answer to an
    expansion that goes beyond the recursion limit, which carries the text
    of the interpreter. Every rejection of the table, and that answer too,
    is returned on some input; rejections of different kinds carry
    different message texts, none of them the text of the interpreter; and
    with the message text left out all rejections are the same value. *)
Theorem rejections_differ_by_message_only :
  (∀ cookbook payload r,
     (create_entry cookbook payload).2 = Returned r ->
     r = mkResponse EmptyBody 200 ∨
     ∃ kind msg, (kind, msg) ∈ rejections ∧ r = error_400 msg) ∧
  (∀ fuel cookbook query_name r,
     summary fuel cookbook query_name = Returned r ->
     (∃ total d, r = mkResponse (SummaryJson query_name total d) 200) ∨
     (∃ kind msg, (kind, msg) ∈ rejections ∧ r = error_400 msg) ∨
     r = error_400 (exn_str RecursionError)) ∧
  Forall (fun entry =>
    (∃ cookbook payload,
       (create_entry cookbook payload).2 = Returned (rejection_response entry)) ∨
    (∃ fuel cookbook query_name,
       summary fuel cookbook query_name = Returned (rejection_response entry)))
    rejections ∧
  (∃ fuel cookbook query_name,
     summary fuel cookbook query_name
     = Returned (error_400 (exn_str RecursionError))) ∧
  (∀ kind1 msg1 kind2 msg2,
     (kind1, msg1) ∈ rejections -> (kind2, msg2) ∈ rejections ->
     kind1 ≠ kind2 -> msg1 ≠ msg2) ∧
  (∀ kind msg, (kind, msg) ∈ rejections -> msg ≠ exn_str RecursionError) ∧
  (∀ msg,
     status (error_400 msg) = 400 ∧
     body_keys (body (error_400 msg)) = ["error"] ∧
     erase_message (error_400 msg) = mkResponse (ErrorJson "") 400).
Proof.
  split; [exact create_entry_returned|].
  split; [exact summary_returned|].
  split; [exact rejections_all_returned|].
  split; [by exists 1%nat, farm, (Some "Chicken")|].
  split; [exact rejections_messages_distinct|].
  split; [exact rejections_not_recursion|].
  done.
Qed.

End rejections.

(** A negative cook time is answered from the table; the chicken of the
    farm, with room for two nested calls, from the table or with the text
    of the interpreter; "not found" and "wrong type" differ in their
    texts, and "not found" is not the text of the interpreter. *)
Lemma rejections_differ_by_message_only_examples :
  (error_400 msg_invalid_cook_time = mkResponse EmptyBody 200 ∨
   ∃ kind msg, (kind, msg) ∈ rejections ∧
               error_400 msg_invalid_cook_time = error_400 msg) ∧
  ((∃ total d,
      error_400 (exn_str RecursionError)
      = mkResponse (SummaryJson (Some "Chicken") total d) 200) ∨
   (∃ kind msg, (kind, msg) ∈ rejections ∧
                error_400 (exn_str RecursionError) = error_400 msg) ∨
   error_400 (exn_str RecursionError) = error_400 (exn_str RecursionError)) ∧
  msg_not_found ≠ msg_wrong_type ∧
  msg_not_found ≠ exn_str RecursionError.
Proof.
  destruct rejections_differ_by_message_only
    as (Hcreate & Hsummary & _ & _ & Hdistinct & Hrecursion & _).
  split; [|split; [|split]].
  - apply (Hcreate [] salt_negative_payload). reflexivity.
  - apply (Hsummary 2%nat farm (Some "Chicken")). reflexivity.
  - apply (Hdistinct NotFound _ WrongType _).
    + apply (bool_decide_unpack _). vm_compute. exact I.
    + apply (bool_decide_unpack _). vm_compute. exact I.
    + discriminate.
  - apply (Hrecursion NotFound).
    apply (bool_decide_unpack _). vm_compute. exact I.
Defined.

(** C5, as stated, fails: the answers for an unknown name and for the name
    of an ingredient are of different kinds, and nothing but the message
    text differs between them. *)
Lemma kinds_not_told_apart_without_message :
  ¬ (∀ kind1 msg1 kind2 msg2,
       (kind1, msg1) ∈ rejections -> (kind2, msg2) ∈ rejections ->
       kind1 ≠ kind2 ->
       erase_message (error_400 msg1) ≠ erase_message (error_400 msg2)) ∧
  summary 1 [] (Some "Flour") = Returned (error_400 msg_not_found) ∧
  summary 1 [flour] (Some "Flour") = Returned (error_400 msg_wrong_type) ∧
  erase_message (error_400 msg_not_found) = erase_message (error_400 msg_wrong_type).
Proof.
  split; [|by repeat split].
  intros Hclaim.
  apply (Hclaim NotFound msg_not_found WrongType msg_wrong_type).
  - apply (bool_decide_unpack _). vm_compute. exact I.
  - apply (bool_decide_unpack _). vm_compute. exact I.
  - discriminate.
  - reflexivity.
Qed.

(** ** Termination of the expansion *)

Section termination.
Variable cookbook : Cookbook.
Implicit Types (items : list RequiredItem) (name : string).

Lemma refers_recipe name r next :
  find_entry cookbook name = Some (ERecipe r) ->
  refers cookbook name next <-> next ∈ ri_name <$> required_items r.
Proof.
  intros Hfind. unfold refers. split.
  - intros (r' & Hfind' & Hin). congruence.
  - intros Hin. by exists r.
Qed.

Lemma refers_stored name next :
  refers cookbook name next -> name ∈ entry_name <$> cookbook.
Proof.
  intros (r & Hfind & _). apply find_entry_Some in Hfind as [<- Hin].
  by apply list_elem_of_fmap_2.
Qed.

Lemma reaches_head item rest name :
  rtc (refers cookbook) (ri_name item) name ->
  reaches cookbook (item :: rest) name.
Proof. intros Hrtc. exists (ri_name item). split; [left | done]. Qed.

Lemma reaches_tail item rest name :
  reaches cookbook rest name -> reaches cookbook (item :: rest) name.
Proof. intros (first & Hin & Hrtc). exists first. split; [by right | done]. Qed.

Lemma reaches_cons item rest name :
  reaches cookbook (item :: rest) name ->
  rtc (refers cookbook) (ri_name item) name ∨ reaches cookbook rest name.
Proof.
  intros (first & Hin & Hrtc). rewrite fmap_cons in Hin.
  apply elem_of_cons in Hin as [->|Hin]; [by left | right; by exists first].
Qed.

Lemma reaches_below item r name :
  find_entry cookbook (ri_name item) = Some (ERecipe r) ->
  reaches cookbook (required_items r) name ->
  rtc (refers cookbook) (ri_name item) name.
Proof.
  intros Hfind (first & Hin & Hrtc).
  eapply rtc_l; [|done]. by apply (refers_recipe _ r).
Qed.

Lemma all_present_head item rest :
  all_present cookbook (item :: rest) ->
  is_Some (find_entry cookbook (ri_name item)).
Proof. intros Hall. apply Hall, reaches_head, rtc_refl. Qed.

Lemma all_present_tail item rest :
  all_present cookbook (item :: rest) -> all_present cookbook rest.
Proof. intros Hall name Hname. by apply Hall, reaches_tail. Qed.

Lemma all_present_below item rest r :
  find_entry cookbook (ri_name item) = Some (ERecipe r) ->
  all_present cookbook (item :: rest) ->
  all_present cookbook (required_items r).
Proof.
  intros Hfind Hall name Hname.
  by eapply Hall, reaches_head, reaches_below.
Qed.

(** A cycle that can be reached through a recipe item can be reached from
    the required items of the stored recipe. *)
Lemma reaches_cycle_below item r name :
  find_entry cookbook (ri_name item) = Some (ERecipe r) ->
  rtc (refers cookbook) (ri_name item) name ->
  tc (refers cookbook) name name ->
  reaches_cycle cookbook (required_items r).
Proof.
  intros Hfind Hrtc Hcycle. exists name. split; [|done].
  apply rtc_inv in Hrtc as [<-|(next & Hnext & Hrtc)].
  - inversion Hcycle as [? ? Hnext|? next ? Hnext Htc]; subst;
      apply (refers_recipe _ _ _ Hfind) in Hnext.
    + exists (ri_name item). split; [done | apply rtc_refl].
    + exists next. split; [done | by apply tc_rtc].
  - apply (refers_recipe _ _ _ Hfind) in Hnext. by exists next.
Qed.

(** With a cycle within reach the loop never gets to its [return]. *)
Lemma loop_cycle_never_returns rec items multiplier :
  (∀ r m d, reaches_cycle cookbook (required_items r) -> rec r m ≠ Ok d) ->
  reaches_cycle cookbook items ->
  ∀ base d, get_base_ingredients_loop cookbook rec items multiplier base ≠ Ok d.
Proof.
  intros Hrec. induction items as [|item rest IH]; intros Hcycle base d.
  - destruct Hcycle as (name & (first & Hin & _) & _). by apply elem_of_nil in Hin.
  - simpl. destruct Hcycle as (name & Hname & Hcycle).
    destruct (find_entry cookbook (ri_name item)) as [[r|i]|] eqn:Hfind; [| |done].
    + destruct (rec r (ri_quantity item * multiplier)) as [sub| |] eqn:Hsub;
        [|done|done].
      apply reaches_cons in Hname as [Hhead|Hrest].
      * exfalso. eapply Hrec; [|done]. by eapply reaches_cycle_below.
      * apply IH. by exists name.
    + apply reaches_cons in Hname as [Hhead|Hrest].
      * exfalso.
        assert (∀ next, ¬ refers cookbook (ri_name item) next) as Hleaf.
        { intros next (r & Hr & _). congruence. }
        apply rtc_inv in Hhead as [<-|(next & Hnext & _)]; [|by eapply Hleaf].
        inversion Hcycle; subst; by eapply Hleaf.
      * apply IH. by exists name.
Qed.

Lemma cycle_never_returns fuel recipe multiplier d :
  reaches_cycle cookbook (required_items recipe) ->
  get_base_ingredients fuel cookbook recipe multiplier ≠ Ok d.
Proof.
  revert recipe multiplier d.
  induction fuel as [|fuel IH]; intros recipe multiplier d Hcycle; simpl; [done|].
  apply loop_cycle_never_returns; [|done].
  intros r m d'. apply IH.
Qed.

(** With every name within reach stored, the loop never raises. *)
Lemma loop_present_never_raises rec items multiplier :
  (∀ r m e, all_present cookbook (required_items r) -> rec r m ≠ Raise e) ->
  all_present cookbook items ->
  ∀ base e, get_base_ingredients_loop cookbook rec items multiplier base ≠ Raise e.
Proof.
  intros Hrec. induction items as [|item rest IH]; intros Hall base e; simpl; [done|].
  destruct (all_present_head _ _ Hall) as [[r|i] Hfind]; rewrite Hfind.
  - destruct (rec r (ri_quantity item * multiplier)) as [sub|e'|] eqn:Hsub;
      [|exfalso|done].
    + by eapply IH, all_present_tail.
    + eapply Hrec; [|done]. by eapply all_present_below.
  - by eapply IH, all_present_tail.
Qed.

Lemma present_never_raises fuel recipe multiplier e :
  all_present cookbook (required_items recipe) ->
  get_base_ingredients fuel cookbook recipe multiplier ≠ Raise e.
Proof.
  revert recipe multiplier e.
  induction fuel as [|fuel IH]; intros recipe multiplier e Hall; simpl; [done|].
  apply loop_present_never_raises; [|done].
  intros r m e'. apply IH.
Qed.

(** A larger budget does not change a result that was reached. *)
Lemma loop_mono rec rec' items multiplier :
  (∀ r m res, rec r m = res -> res ≠ TooDeep -> rec' r m = res) ->
  ∀ base res,
    get_base_ingredients_loop cookbook rec items multiplier base = res ->
    res ≠ TooDeep ->
    get_base_ingredients_loop cookbook rec' items multiplier base = res.
Proof.
  intros Hrec. induction items as [|item rest IH]; intros base res; simpl; [done|].
  destruct (find_entry cookbook (ri_name item)) as [[r|i]|]; [|apply IH|done].
  destruct (rec r (ri_quantity item * multiplier)) as [sub|e|] eqn:Hsub.
  - rewrite (Hrec _ _ _ Hsub) by done. apply IH.
  - rewrite (Hrec _ _ _ Hsub) by done. done.
  - by intros <-.
Qed.

Lemma get_base_ingredients_mono fuel fuel' recipe multiplier res :
  (fuel <= fuel')%nat ->
  get_base_ingredients fuel cookbook recipe multiplier = res ->
  res ≠ TooDeep ->
  get_base_ingredients fuel' cookbook recipe multiplier = res.
Proof.
  revert fuel' recipe multiplier res.
  induction fuel as [|fuel IH]; intros fuel' recipe multiplier res Hle; simpl.
  - by intros <-.
  - destruct fuel' as [|fuel']; [lia|]. simpl.
    apply loop_mono. intros r m res'. apply IH. lia.
Qed.

(** Running out of budget happens in a recursive call. *)
Lemma loop_out_of_fuel rec items multiplier base :
  get_base_ingredients_loop cookbook rec items multiplier base = TooDeep ->
  ∃ item r, item ∈ items ∧
            find_entry cookbook (ri_name item) = Some (ERecipe r) ∧
            rec r (ri_quantity item * multiplier) = TooDeep.
Proof.
  revert base. induction items as [|item rest IH]; intros base; simpl; [done|].
  destruct (find_entry cookbook (ri_name item)) as [[r|i]|] eqn:Hfind; [| |done].
  - destruct (rec r (ri_quantity item * multiplier)) as [sub|e|] eqn:Hsub;
      [|done|].
    + intros (item' & r' & Hin & H)%IH. exists item', r'. split; [by right | done].
    + intros _. exists item, r. split; [left | done].
  - intros (item' & r' & Hin & H)%IH. exists item', r'. split; [by right | done].
Qed.

(** A budget of [S fuel] that is used up has gone down a chain of [S fuel]
    stored recipes, each referring to the next. *)
Lemma out_of_fuel_linked fuel recipe multiplier :
  get_base_ingredients (S fuel) cookbook recipe multiplier = TooDeep ->
  ∃ first names,
    first ∈ ri_name <$> required_items recipe ∧
    length names = fuel ∧
    linked cookbook (first :: names) ∧
    Forall (fun name => name ∈ entry_name <$> cookbook) (first :: names).
Proof.
  revert recipe multiplier. induction fuel as [|fuel IH]; intros recipe multiplier.
  - intros (item & r & Hin & Hfind & _)%loop_out_of_fuel.
    exists (ri_name item), []. split; [by apply list_elem_of_fmap_2|].
    split; [done|]. split; [done|].
    apply Forall_cons_2; [|done].
    apply find_entry_Some in Hfind as [<- ?]. by apply list_elem_of_fmap_2.
  - cbn [get_base_ingredients].
    intros (item & r & Hin & Hfind & Hsub)%loop_out_of_fuel.
    apply IH in Hsub as (first & names & Hfirst & Hlen & Hlinked & Hstored).
    exists (ri_name item), (first :: names).
    split; [by apply list_elem_of_fmap_2|].
    split; [simpl; by rewrite Hlen|]. split.
    + split; [by apply (refers_recipe _ r) | done].
    + apply Forall_cons_2; [|done].
      apply find_entry_Some in Hfind as [<- ?]. by apply list_elem_of_fmap_2.
Qed.

Lemma linked_tail name names :
  linked cookbook (name :: names) -> linked cookbook names.
Proof. destruct names; [done | by intros [_ ?]]. Qed.

Lemma linked_app_r names names' :
  linked cookbook (names ++ names') -> linked cookbook names'.
Proof.
  induction names as [|name names IH]; [done|].
  intros Hlinked. by apply IH, (linked_tail name).
Qed.

(** A chain that comes back to its first name is a cycle. *)
Lemma linked_cycle name between after :
  linked cookbook (name :: between ++ name :: after) ->
  tc (refers cookbook) name name.
Proof.
  generalize name at 1 3 as start. revert name.
  induction between as [|next between IH]; intros name start; simpl.
  - intros [Hstep _]. by apply tc_once.
  - intros [Hstep Hrest]. eapply tc_l; [done|]. by apply IH.
Qed.

(** More names than a list has, all taken from it: one comes twice. *)
Lemma repeated_name (names stored : list string) :
  Forall (fun name => name ∈ stored) names ->
  (length stored < length names)%nat ->
  ∃ name before between after,
    names = before ++ name :: between ++ name :: after.
Proof.
  intros Hstored Hlen.
  assert (¬ NoDup names) as Hdup.
  { intros Hnd. apply (NoDup_submseteq _ stored) in Hnd.
    - apply submseteq_length in Hnd. lia.
    - by apply Forall_forall. }
  clear Hstored Hlen. induction names as [|name names IH].
  - destruct Hdup. apply NoDup_nil_2.
  - destruct (decide (name ∈ names)) as [Hin|Hnotin].
    + apply list_elem_of_split in Hin as (between & after & ->).
      by exists name, [], between, after.
    + destruct IH as (name' & before & between & after & ->).
      { intros Hnd. apply Hdup. by apply NoDup_cons. }
      by exists name', (name :: before), between, after.
Qed.

(** Without a cycle, a budget above the number of entries is never used
    up. *)
Lemma acyclic_enough_fuel fuel recipe multiplier :
  acyclic cookbook -> (length cookbook < fuel)%nat ->
  get_base_ingredients fuel cookbook recipe multiplier ≠ TooDeep.
Proof.
  intros Hacyclic Hfuel. destruct fuel as [|fuel]; [lia|].
  intros (first & names & _ & Hlen & Hlinked & Hstored)%out_of_fuel_linked.
  destruct (repeated_name (first :: names) (entry_name <$> cookbook))
    as (name & before & between & after & Heq); [done | |].
  - rewrite length_fmap. simpl. lia.
  - rewrite Heq in Hlinked. apply linked_app_r in Hlinked.
    by apply linked_cycle, Hacyclic in Hlinked.
Qed.

(** A walk that returns a mapping has completed. *)
Lemma loop_ok_completes rec items multiplier :
  (∀ r m d, rec r m = Ok d -> completes cookbook (required_items r)) ->
  ∀ base d,
    get_base_ingredients_loop cookbook rec items multiplier base = Ok d ->
    completes cookbook items.
Proof.
  intros Hrec. induction items as [|item rest IH]; intros base d; simpl.
  - intros _. constructor.
  - destruct (find_entry cookbook (ri_name item)) as [[r|i]|] eqn:Hfind; [| |done].
    + destruct (rec r (ri_quantity item * multiplier)) as [sub| |] eqn:Hsub;
        [|done|done].
      intros Hrest%IH. eapply completes_recipe; [done| |done]. by eapply Hrec.
    + intros Hrest%IH. by eapply completes_ingredient.
Qed.

Lemma ok_completes fuel recipe multiplier d :
  get_base_ingredients fuel cookbook recipe multiplier = Ok d ->
  completes cookbook (required_items recipe).
Proof.
  revert recipe multiplier d.
  induction fuel as [|fuel IH]; intros recipe multiplier d; simpl; [done|].
  apply loop_ok_completes. apply IH.
Qed.

(** A walk that raises has met a name without an entry. *)
Lemma loop_raise_meets_missing rec items multiplier :
  (∀ r m d, rec r m = Ok d -> completes cookbook (required_items r)) ->
  (∀ r m e, rec r m = Raise e -> meets_missing cookbook (required_items r)) ->
  ∀ base e,
    get_base_ingredients_loop cookbook rec items multiplier base = Raise e ->
    meets_missing cookbook items.
Proof.
  intros Hok Hraise. induction items as [|item rest IH]; intros base e; simpl;
    [done|].
  destruct (find_entry cookbook (ri_name item)) as [[r|i]|] eqn:Hfind.
  - destruct (rec r (ri_quantity item * multiplier)) as [sub|e'|] eqn:Hsub;
      [| |done].
    + intros Hrest%IH. apply meets_later; [|done].
      eapply completes_recipe; [done| |constructor]. by eapply Hok.
    + intros _. eapply meets_below; [done|]. by eapply Hraise.
  - intros Hrest%IH. apply meets_later; [|done].
    eapply completes_ingredient; [done | constructor].
  - intros _. by apply meets_here.
Qed.

Lemma raise_meets_missing fuel recipe multiplier e :
  get_base_ingredients fuel cookbook recipe multiplier = Raise e ->
  meets_missing cookbook (required_items recipe).
Proof.
  revert recipe multiplier e.
  induction fuel as [|fuel IH]; intros recipe multiplier e; simpl; [done|].
  apply loop_raise_meets_missing; [|apply IH].
  intros r m d. apply ok_completes.
Qed.

(** With a cycle within reach and no missing name met on the way, every
    recursion limit is reached. *)
Lemma cycle_too_deep fuel recipe multiplier :
  reaches_cycle cookbook (required_items recipe) ->
  ¬ meets_missing cookbook (required_items recipe) ->
  get_base_ingredients fuel cookbook recipe multiplier = TooDeep.
Proof.
  intros Hcycle Hnone.
  destruct (get_base_ingredients fuel cookbook recipe multiplier)
    as [d|e|] eqn:Hrun; [| |done].
  - by apply cycle_never_returns in Hrun.
  - by apply raise_meets_missing in Hrun.
Qed.

(** C7 (as amended). In a store whose requirement-reference graph has no
    cycle, the expansion of any recipe returns a result: every recursion
    limit above the number of entries gives one and the same result, which
    is a mapping or the missing-dependency exception, and is a mapping when
    every name within reach has an entry. When the graph within reach of
    the target has a cycle, the expansion never returns a mapping: if the
    depth-first walk meets a name without an entry it raises the
    missing-dependency exception, for every large enough limit; if not, it
    goes on until the recursion limit is reached, however large the limit,
    and ends with [RecursionError], which [summary] answers with status
    400. Nothing detects the cycle. *)
Theorem expansion_terminates_unless_cycle recipe multiplier :
  (acyclic cookbook ->
   ∃ res,
     (∀ fuel : nat, (length cookbook < fuel)%nat ->
        get_base_ingredients fuel cookbook recipe multiplier = res) ∧
     ((∃ d, res = Ok d) ∨ res = Raise (Exception msg_missing_dependency)) ∧
     (all_present cookbook (required_items recipe) -> ∃ d, res = Ok d)) ∧
  (reaches_cycle cookbook (required_items recipe) ->
   (∀ fuel d, get_base_ingredients fuel cookbook recipe multiplier ≠ Ok d) ∧
   (meets_missing cookbook (required_items recipe) ->
    ∃ n0 : nat, ∀ fuel : nat, (n0 <= fuel)%nat ->
      get_base_ingredients fuel cookbook recipe multiplier
      = Raise (Exception msg_missing_dependency)) ∧
   (¬ meets_missing cookbook (required_items recipe) ->
    ∀ fuel,
      get_base_ingredients fuel cookbook recipe multiplier = TooDeep ∧
      (unique_names cookbook -> ERecipe recipe ∈ cookbook ->
       summary fuel cookbook (Some (r_name recipe))
       = Returned (error_400 (exn_str RecursionError))))).
Proof.
  split.
  - intros Hacyclic.
    pose proof (acyclic_enough_fuel (S (length cookbook)) recipe multiplier
                  Hacyclic (Nat.lt_succ_diag_r _)) as Hres.
    exists (get_base_ingredients (S (length cookbook)) cookbook recipe multiplier).
    split; [|split].
    + intros fuel Hfuel.
      by apply (get_base_ingredients_mono (S (length cookbook))); [lia|..].
    + destruct (get_base_ingredients _ _ _ _) as [d|e|] eqn:Hrun; [|right|done].
      * left. by exists d.
      * by apply get_base_ingredients_raise in Hrun as ->.
    + intros Hall.
      destruct (get_base_ingredients _ _ _ _) as [d|e|] eqn:Hrun; [| |done].
      * by exists d.
      * by apply present_never_raises in Hrun.
  - intros Hcycle. split; [|split].
    + intros fuel d. by apply cycle_never_returns.
    + intros [n0 Hloop]%loop_meets_missing.
      exists (S n0). intros [|fuel] Hfuel; [lia|]. simpl. apply Hloop. lia.
    + intros Hnone fuel. split; [by apply cycle_too_deep|].
      intros Huniq Hin. unfold summary.
      by rewrite find_recipe_entry_unique, cycle_too_deep.
Qed.

End termination.

(** A rank that goes down along every reference rules out cycles. *)
Lemma acyclic_by_rank cookbook (rank : string -> nat) :
  (∀ name next, refers cookbook name next -> (rank next < rank name)%nat) ->
  acyclic cookbook.
Proof.
  intros Hrank name Hcycle.
  assert (∀ a b, tc (refers cookbook) a b -> (rank b < rank a)%nat) as Hlt.
  { induction 1 as [a b Hstep|a b c Hstep _ IH].
    - by apply Hrank.
    - apply Hrank in Hstep. lia. }
  apply Hlt in Hcycle. lia.
Qed.

Lemma bakery_acyclic : acyclic bakery.
Proof.
  apply (acyclic_by_rank _ bakery_rank).
  intros name next (r & Hfind & Hin). unfold bakery in Hfind.
  cbn [find_entry] in Hfind.
  repeat match type of Hfind with
         | context [String.eqb ?a name] =>
             destruct (String.eqb_spec a name) as [<-|_]
         end;
    try discriminate Hfind; injection Hfind as <-; cbn in Hin;
    repeat (apply elem_of_cons in Hin as [->|Hin]; [vm_compute; lia|]);
    by apply elem_of_nil in Hin.
Qed.

Lemma bakery_cake_all_present : all_present bakery (required_items cake).
Proof.
  assert (∀ a b, rtc (refers bakery) a b ->
            a = "Flour" ∨ a = "Dough" -> b = "Flour" ∨ b = "Dough") as Hclosed.
  { induction 1 as [|a b c (r & Hfind & Hin) _ IH]; [done|].
    intros [->| ->]; [done|]. apply IH.
    injection Hfind as <-. simpl in Hin.
    apply elem_of_cons in Hin as [->|Hin]; [by left | by apply elem_of_nil in Hin]. }
  intros name (first & Hin & Hrtc). simpl in Hin.
  assert (first = "Flour" ∨ first = "Dough") as Hfirst.
  { apply elem_of_cons in Hin as [->|Hin]; [by left|].
    apply elem_of_cons in Hin as [->|Hin]; [by right | by apply elem_of_nil in Hin]. }
  destruct (Hclosed _ _ Hrtc Hfirst) as [->| ->]; by eexists.
Qed.

Lemma egg_cycle : tc (refers farm) "Egg" "Egg".
Proof.
  apply (tc_l _ _ "Chicken").
  - exists egg. split; [reflexivity | apply list_elem_of_here].
  - apply tc_once. exists chicken. split; [reflexivity | apply list_elem_of_here].
Qed.

Lemma chicken_reaches_cycle : reaches_cycle farm (required_items chicken).
Proof.
  exists "Egg". split; [|apply egg_cycle].
  exists "Egg". split; [apply list_elem_of_here | apply rtc_refl].
Qed.

(** In the farm a walk that starts with an egg or a chicken neither
    completes nor meets a name without an entry. *)
Lemma farm_walk_not_completed items :
  completes farm items ->
  ¬ ∃ item rest, items = item :: rest ∧
                 (ri_name item = "Egg" ∨ ri_name item = "Chicken").
Proof.
  induction 1 as [|item rest i Hfind _ _|item rest r Hfind _ IH _ _].
  - by intros (item & rest & ? & _).
  - intros (item' & rest' & [= <- <-] & [Hname|Hname]);
      rewrite Hname in Hfind; discriminate Hfind.
  - intros (item' & rest' & [= <- <-] & [Hname|Hname]);
      rewrite Hname in Hfind; injection Hfind as <-;
      apply IH; eexists _, _; (split; [reflexivity|]); [by right | by left].
Qed.

Lemma farm_walk_meets_nothing items :
  meets_missing farm items ->
  ¬ ∃ item rest, items = item :: rest ∧
                 (ri_name item = "Egg" ∨ ri_name item = "Chicken").
Proof.
  induction 1 as [item rest Hfind|item rest r Hfind _ IH|item rest Hitem _ _].
  - intros (item' & rest' & [= <- <-] & [Hname|Hname]);
      rewrite Hname in Hfind; discriminate Hfind.
  - intros (item' & rest' & [= <- <-] & [Hname|Hname]);
      rewrite Hname in Hfind; injection Hfind as <-;
      apply IH; eexists _, _; (split; [reflexivity|]); [by right | by left].
  - intros (item' & rest' & [= <- <-] & Hname).
    apply (farm_walk_not_completed _ Hitem). by exists item, [].
Qed.

Lemma chicken_meets_nothing : ¬ meets_missing farm (required_items chicken).
Proof.
  intros Hmeets. apply (farm_walk_meets_nothing _ Hmeets).
  eexists _, _. split; [reflexivity | by left].
Qed.

Lemma egg_first_omelette_meets_nothing :
  ¬ meets_missing farm (required_items egg_first_omelette).
Proof.
  intros Hmeets. apply (farm_walk_meets_nothing _ Hmeets).
  eexists _, _. split; [reflexivity | by left].
Qed.

Lemma egg_first_omelette_reaches_cycle :
  reaches_cycle farm (required_items egg_first_omelette).
Proof.
  exists "Egg". split; [|apply egg_cycle].
  exists "Egg". split; [apply list_elem_of_here | apply rtc_refl].
Qed.

(** The cake of the bakery is resolved with any recursion limit above
    four. In the farm, the omelette that lists the egg before the butter,
    which has no entry, reaches every limit in the egg-and-chicken cycle;
    so does the chicken, and the query for it is answered 400 with the text
    of the interpreter. *)
Lemma expansion_terminates_unless_cycle_examples :
  (∃ res,
     (∀ fuel : nat, (length bakery < fuel)%nat ->
        get_base_ingredients fuel bakery cake 1 = res) ∧
     ((∃ d, res = Ok d) ∨ res = Raise (Exception msg_missing_dependency)) ∧
     (all_present bakery (required_items cake) -> ∃ d, res = Ok d)) ∧
  (∀ fuel, get_base_ingredients fuel farm egg_first_omelette 1 = TooDeep) ∧
  (∀ fuel,
     get_base_ingredients fuel farm chicken 1 = TooDeep ∧
     summary fuel farm (Some "Chicken")
     = Returned (error_400 (exn_str RecursionError))).
Proof.
  split; [|split].
  - apply (proj1 (expansion_terminates_unless_cycle bakery cake 1)).
    exact bakery_acyclic.
  - intros fuel.
    apply (proj2 (expansion_terminates_unless_cycle farm egg_first_omelette 1)).
    + exact egg_first_omelette_reaches_cycle.
    + exact egg_first_omelette_meets_nothing.
  - intros fuel.
    destruct (proj2 (expansion_terminates_unless_cycle farm chicken 1)
                chicken_reaches_cycle) as (_ & _ & Hdeep).
    destruct (Hdeep chicken_meets_nothing fuel) as [Hrun Hsummary].
    split; [exact Hrun|]. apply Hsummary.
    + apply (bool_decide_unpack _). vm_compute. exact I.
    + apply (bool_decide_unpack _). vm_compute. exact I.
Defined.

(** C7, as stated, fails, twice. The omelette that lists the butter first
    can reach the egg-and-chicken cycle, but the butter has no entry and
    the expansion stops there with the missing-dependency exception,
    without recursing further. And the expansion of the chicken, which is
    on the cycle, does terminate, whatever the recursion limit: the query
    for it is answered. *)
Lemma cycle_within_reach_yet_terminates :
  ¬ (∀ cookbook recipe,
       reaches_cycle cookbook (required_items recipe) ->
       ∀ fuel multiplier,
         get_base_ingredients fuel cookbook recipe multiplier = TooDeep) ∧
  (∀ fuel, summary fuel farm (Some "Chicken")
           = Returned (error_400 (exn_str RecursionError))).
Proof.
  split.
  - intros Hclaim.
    assert (reaches_cycle farm (required_items omelette)) as Hcycle.
    { exists "Egg". split; [|apply egg_cycle].
      exists "Egg". split; [|apply rtc_refl].
      apply list_elem_of_further, list_elem_of_here. }
    specialize (Hclaim farm omelette Hcycle 1%nat 1). discriminate Hclaim.
  - intros fuel. unfold summary.
    change (find_recipe_entry farm (Some "Chicken") None) with (Next (Some chicken)).
    cbv beta iota.
    by rewrite (cycle_too_deep farm fuel chicken 1 chicken_reaches_cycle
                  chicken_meets_nothing).
Qed.

(** ** The handlers on the examples of the specification *)

(** Nested expansion: Bread needs 3 Dough of 2 Flour each. *)
Example summary_bread :
  summary 3 bakery (Some "Bread")
  = Returned (mkResponse (SummaryJson (Some "Bread") 6 {["Flour" := 6]}) 200).
Proof. vm_compute. reflexivity. Qed.

(** A shared sub-ingredient is merged: Cake needs 1 Flour and 1 Dough. *)
Example summary_cake :
  summary 3 bakery (Some "Cake")
  = Returned (mkResponse (SummaryJson (Some "Cake") 3 {["Flour" := 3]}) 200).
Proof. vm_compute. reflexivity. Qed.

(** A query for an ingredient is refused. *)
Example summary_flour :
  summary 3 bakery (Some "Flour") = Returned (error_400 msg_wrong_type).
Proof. reflexivity. Qed.

(** Two required items of the same name are refused. *)
Example create_entry_duplicate_items :
  create_entry [] (mkPayload (Some "recipe") (Some "Mash") None
    (Some [mkRequiredItemPayload (Some "potato") (Some 1);
           mkRequiredItemPayload (Some "potato") (Some 2)]))
  = ([], Returned (error_400 msg_duplicate_required_item)).
Proof. reflexivity. Qed.

(** Names are compared as they are: "salt" is not "Salt". *)
Example create_entry_case_sensitive :
  create_entry [EIngredient (mkIngredient "Salt" 1)]
    (mkPayload (Some "ingredient") (Some "salt") (Some 0) None)
  = ([EIngredient (mkIngredient "Salt" 1); EIngredient (mkIngredient "salt" 0)],
     Returned (mkResponse EmptyBody 200)).
Proof. reflexivity. Qed.

(** A recipe may be registered before what it requires. *)
Example create_entry_before_dependencies :
  create_entry [] (lunch_payload 2)
  = ([ERecipe (mkRecipe "Lunch" [mkRequiredItem "Salt" 2])],
     Returned (mkResponse EmptyBody 200)).
Proof. reflexivity. Qed.

(** * Further properties of the source *)

(** ** Character classes *)

Section characters.

Ltac by_all_characters :=
  intros [[] [] [] [] [] [] [] []]; vm_compute; try done; auto.

Lemma letter_not_space c : is_letter c = true -> is_space c = false.
Proof. revert c. by_all_characters. Qed.

Lemma letter_not_separator c : is_letter c = true -> is_separator c = false.
Proof. revert c. by_all_characters. Qed.

Lemma letter_kept c : is_letter c = true -> is_kept c = true.
Proof. revert c. by_all_characters. Qed.

Lemma kept_letter_or_space c :
  is_kept c = true -> is_letter c = true ∨ c = " "%char.
Proof. revert c. by_all_characters. Qed.

Lemma kept_space_is_blank c :
  is_kept c = true -> is_space c = true -> c = " "%char.
Proof. revert c. by_all_characters. Qed.

Lemma kept_separator_is_blank c :
  is_kept c = true -> is_separator c = true -> c = " "%char.
Proof. revert c. by_all_characters. Qed.

Lemma is_letter_to_upper c : is_letter (to_upper c) = is_letter c.
Proof. revert c. by_all_characters. Qed.

Lemma is_letter_to_lower c : is_letter (to_lower c) = is_letter c.
Proof. revert c. by_all_characters. Qed.

Lemma is_kept_to_upper c : is_kept (to_upper c) = is_kept c.
Proof. revert c. by_all_characters. Qed.

Lemma is_kept_to_lower c : is_kept (to_lower c) = is_kept c.
Proof. revert c. by_all_characters. Qed.

Lemma to_lower_to_upper c : to_lower (to_upper c) = to_lower c.
Proof. revert c. by_all_characters. Qed.

Lemma to_lower_to_lower c : to_lower (to_lower c) = to_lower c.
Proof. revert c. by_all_characters. Qed.

Lemma is_upper_to_upper c : is_letter c = true -> is_upper (to_upper c) = true.
Proof. revert c. by_all_characters. Qed.

Lemma is_lower_to_lower c : is_letter c = true -> is_lower (to_lower c) = true.
Proof. revert c. by_all_characters. Qed.

Lemma to_upper_upper c : is_upper c = true -> to_upper c = c.
Proof. revert c. by_all_characters. Qed.

Lemma to_lower_lower c : is_lower c = true -> to_lower c = c.
Proof. revert c. by_all_characters. Qed.

Lemma upper_is_letter c : is_upper c = true -> is_letter c = true.
Proof. revert c. by_all_characters. Qed.

Lemma lower_is_letter c : is_lower c = true -> is_letter c = true.
Proof. revert c. by_all_characters. Qed.

End characters.

(** ** The passes of [parse_handwriting] *)

Section passes.
Implicit Types (s : list ascii) (c : ascii) (b : bool).

Lemma non_letter_to_upper c : is_letter c = false -> to_upper c = c.
Proof.
  unfold is_letter, to_upper. intros [_ ->]%orb_false_iff. done.
Qed.

Lemma non_letter_to_lower c : is_letter c = false -> to_lower c = c.
Proof.
  unfold is_letter, to_lower. intros [-> _]%orb_false_iff. done.
Qed.

Lemma space_not_letter c : is_space c = true -> is_letter c = false.
Proof.
  intros Hspace. destruct (is_letter c) eqn:Hletter; [|done].
  apply letter_not_space in Hletter. congruence.
Qed.

Lemma separator_not_letter c : is_separator c = true -> is_letter c = false.
Proof.
  intros Hsep. destruct (is_letter c) eqn:Hletter; [|done].
  apply letter_not_separator in Hletter. congruence.
Qed.

Lemma letters_sub_separators s b :
  List.filter is_letter (sub_separators s b) = List.filter is_letter s.
Proof.
  revert b. induction s as [|c s IH]; intros b; [done|].
  cbn [sub_separators List.filter].
  destruct (is_separator c) eqn:Hsep.
  - rewrite (separator_not_letter c Hsep).
    destruct b; [apply IH|]. cbn [List.filter].
    change (is_letter " ") with false. apply IH.
  - cbn [List.filter]. rewrite IH. done.
Qed.

Lemma letters_sub_non_letters s :
  List.filter is_letter (sub_non_letters s) = List.filter is_letter s.
Proof.
  unfold sub_non_letters. induction s as [|c s IH]; [done|].
  cbn [List.filter]. destruct (is_kept c) eqn:Hkept.
  - cbn [List.filter]. by rewrite IH.
  - destruct (is_letter c) eqn:Hletter; [|done].
    apply letter_kept in Hletter. congruence.
Qed.

Lemma lowered_letters_title_from b s :
  lowered_letters (title_from b s) = lowered_letters s.
Proof.
  unfold lowered_letters. revert b. induction s as [|c s IH]; intros b; [done|].
  cbn [title_from List.filter].
  destruct b; rewrite ?is_letter_to_lower, ?is_letter_to_upper;
    destruct (is_letter c); cbn [List.map];
    rewrite ?to_lower_to_lower, ?to_lower_to_upper, IH; done.
Qed.

Lemma letters_lstrip s :
  List.filter is_letter (lstrip s) = List.filter is_letter s.
Proof.
  induction s as [|c s IH]; [done|]. cbn [lstrip].
  destruct (is_space c) eqn:Hspace; [|done].
  cbn [List.filter]. by rewrite (space_not_letter c Hspace).
Qed.

Lemma letters_strip s :
  List.filter is_letter (strip s) = List.filter is_letter s.
Proof.
  unfold strip, rstrip.
  by rewrite List.filter_rev, letters_lstrip, List.filter_rev,
    rev_involutive, letters_lstrip.
Qed.

Lemma lstrip_head s c rest : lstrip s = c :: rest -> is_space c = false.
Proof.
  induction s as [|a s IH]; [done|]. cbn [lstrip].
  destruct (is_space a) eqn:Hspace; [done|]. by intros [= <- _].
Qed.

Lemma lstrip_suffix s : ∃ blanks, s = blanks ++ lstrip s.
Proof.
  induction s as [|a s [blanks IH]]; [by exists []|]. cbn [lstrip].
  destruct (is_space a); [|by exists []].
  exists (a :: blanks). simpl. by f_equal.
Qed.

Lemma rstrip_prefix s : ∃ blanks, s = rstrip s ++ blanks.
Proof.
  unfold rstrip. destruct (lstrip_suffix (rev s)) as [blanks Hrev].
  exists (rev blanks).
  rewrite <- rev_app_distr, <- Hrev. by rewrite rev_involutive.
Qed.

Lemma lstrip_id s :
  match s with [] => True | c :: _ => is_space c = false end -> lstrip s = s.
Proof. destruct s as [|c s]; [done|]. cbn [lstrip]. by intros ->. Qed.

Lemma strip_head s c rest : strip s = c :: rest -> is_space c = false.
Proof.
  unfold strip. intros Hstrip.
  destruct (rstrip_prefix (lstrip s)) as [blanks Hprefix].
  rewrite Hstrip in Hprefix. by apply lstrip_head in Hprefix.
Qed.

Lemma last_rev s : last (rev s) = head s.
Proof. destruct s as [|c s]; [done|]. simpl. apply last_snoc. Qed.

Lemma strip_last s c : last (strip s) = Some c -> is_space c = false.
Proof.
  unfold strip, rstrip. rewrite last_rev.
  destruct (lstrip (rev (lstrip s))) as [|a rest] eqn:Hl; [done|].
  intros [= ->]. by apply lstrip_head in Hl.
Qed.

Lemma forallb_rev (f : ascii -> bool) s :
  forallb f s = true -> forallb f (rev s) = true.
Proof.
  rewrite !forallb_forall. intros Hall c Hin. by apply Hall, in_rev.
Qed.

Lemma kept_lstrip s : forallb is_kept s = true -> forallb is_kept (lstrip s) = true.
Proof.
  induction s as [|c s IH]; [done|]. cbn [lstrip forallb].
  intros [Hc Hs]%andb_true_iff.
  destruct (is_space c); [by apply IH|]. cbn [forallb]. by rewrite Hc, Hs.
Qed.

Lemma kept_strip s : forallb is_kept s = true -> forallb is_kept (strip s) = true.
Proof.
  intros Hs. unfold strip, rstrip.
  by apply forallb_rev, kept_lstrip, forallb_rev, kept_lstrip.
Qed.

Lemma kept_title_from b s :
  forallb is_kept s = true -> forallb is_kept (title_from b s) = true.
Proof.
  revert b. induction s as [|c s IH]; intros b; [done|].
  cbn [title_from forallb]. intros [Hc Hs]%andb_true_iff.
  rewrite IH by done.
  destruct b; rewrite ?is_kept_to_lower, ?is_kept_to_upper, Hc; done.
Qed.

Lemma title_cased_title_from b s : title_cased b (title_from b s) = true.
Proof.
  revert b. induction s as [|c s IH]; intros b; [done|].
  cbn [title_from title_cased].
  destruct b; rewrite ?is_letter_to_lower, ?is_letter_to_upper, IH, andb_true_r;
    destruct (is_letter c) eqn:Hletter; try done;
    [by apply is_lower_to_lower | by apply is_upper_to_upper].
Qed.

Lemma title_cased_lstrip s :
  title_cased false s = true -> title_cased false (lstrip s) = true.
Proof.
  induction s as [|c s IH]; [done|]. cbn [lstrip].
  destruct (is_space c) eqn:Hspace; [|done].
  cbn [title_cased]. rewrite (space_not_letter c Hspace). apply IH.
Qed.

Lemma title_cased_prefix b s s' :
  title_cased b (s ++ s') = true -> title_cased b s = true.
Proof.
  revert b. induction s as [|c s IH]; intros b; [done|].
  cbn [app title_cased]. intros [Hc Hs]%andb_true_iff.
  rewrite Hc. by apply IH in Hs.
Qed.

Lemma title_cased_strip s :
  title_cased false s = true -> title_cased false (strip s) = true.
Proof.
  intros Hs%title_cased_lstrip. unfold strip.
  destruct (rstrip_prefix (lstrip s)) as [blanks Hprefix].
  rewrite Hprefix in Hs. by apply title_cased_prefix in Hs.
Qed.

(** A string that is already in title case is left as it is. *)
Lemma title_from_id b s : title_cased b s = true -> title_from b s = s.
Proof.
  revert b. induction s as [|c s IH]; intros b; [done|].
  cbn [title_from title_cased]. intros [Hc Hs]%andb_true_iff.
  rewrite IH by done. f_equal.
  destruct (is_letter c) eqn:Hletter.
  - destruct b; [by apply to_lower_lower | by apply to_upper_upper].
  - destruct b; [by apply non_letter_to_lower | by apply non_letter_to_upper].
Qed.

(** What [parse_characters] returns is the stripped, title-cased string,
    when that is not empty. *)
Lemma parse_characters_Some raw out :
  parse_characters raw = Some out <->
  out = strip (title (sub_non_letters (sub_separators raw false))) ∧ out ≠ [].
Proof.
  unfold parse_characters.
  destruct (strip _) as [|c rest]; simpl; split.
  - done.
  - by intros [-> ?].
  - by intros [= <-].
  - by intros [-> _].
Qed.

Lemma parse_characters_None raw :
  parse_characters raw = None <->
  strip (title (sub_non_letters (sub_separators raw false))) = [].
Proof.
  unfold parse_characters. by destruct (strip _) as [|c rest].
Qed.

Lemma parse_handwriting_Some raw out :
  parse_handwriting raw = Some out ->
  parse_characters (String.list_ascii_of_string raw)
  = Some (String.list_ascii_of_string out).
Proof.
  unfold parse_handwriting.
  destruct (parse_characters _) as [o|]; simpl; [|done].
  intros [= <-]. by rewrite String.list_ascii_of_string_of_list_ascii.
Qed.

Lemma lowered_letters_cleaned raw :
  lowered_letters (strip (title (sub_non_letters (sub_separators raw false))))
  = lowered_letters raw.
Proof.
  unfold lowered_letters at 1. rewrite letters_strip.
  fold (lowered_letters (title (sub_non_letters (sub_separators raw false)))).
  unfold title. rewrite lowered_letters_title_from. unfold lowered_letters.
  by rewrite letters_sub_non_letters, letters_sub_separators.
Qed.

Lemma kept_cleaned raw :
  forallb is_kept (strip (title (sub_non_letters (sub_separators raw false))))
  = true.
Proof. apply kept_strip, kept_title_from, List.forallb_filter. Qed.

End passes.

(** ** What [parse_handwriting] returns *)

Section parse_handwriting_results.
Implicit Types (raw out : string).

Lemma parse_characters_None_iff_no_letter chars :
  parse_characters chars = None <-> List.filter is_letter chars = [].
Proof.
  rewrite parse_characters_None.
  pose proof (lowered_letters_cleaned chars) as Hletters.
  pose proof (kept_cleaned chars) as Hkept.
  destruct (strip _) as [|c rest] eqn:Hstrip; split; try done.
  - intros _. unfold lowered_letters in Hletters. simpl in Hletters.
    symmetry in Hletters. by apply map_eq_nil in Hletters.
  - intros Hnone. exfalso.
    unfold lowered_letters in Hletters. rewrite Hnone in Hletters.
    apply strip_head in Hstrip as Hspace.
    cbn [forallb] in Hkept. apply andb_true_iff in Hkept as [Hc _].
    apply kept_letter_or_space in Hc as [Hletter| ->]; [|done].
    cbn [List.filter] in Hletters. by rewrite Hletter in Hletters.
Qed.

(** X1. [parse_handwriting] returns [None] exactly when the raw name has
    no letter of [A-Za-z]: digits, punctuation, separators and white space
    alone never make a name, and one letter is enough to make one. *)
Theorem parse_handwriting_None_iff_no_letter raw :
  parse_handwriting raw = None <->
  List.filter is_letter (String.list_ascii_of_string raw) = [].
Proof.
  unfold parse_handwriting.
  rewrite <- parse_characters_None_iff_no_letter.
  destruct (parse_characters _); simpl; split; done.
Qed.

(** X2. The name returned has the letters of the raw name, all of them and
    in the same order; only their case may differ. *)
Theorem parse_handwriting_keeps_letters raw out :
  parse_handwriting raw = Some out ->
  lowered_letters (String.list_ascii_of_string out)
  = lowered_letters (String.list_ascii_of_string raw).
Proof.
  intros [-> _]%parse_handwriting_Some%parse_characters_Some.
  apply lowered_letters_cleaned.
Qed.

(** X3. The name returned is made of letters and spaces only, and it
    begins and ends with a letter. *)
Theorem parse_handwriting_shape raw out :
  parse_handwriting raw = Some out ->
  forallb is_kept (String.list_ascii_of_string out) = true ∧
  (∃ c, head (String.list_ascii_of_string out) = Some c ∧ is_letter c = true) ∧
  (∃ c, last (String.list_ascii_of_string out) = Some c ∧ is_letter c = true).
Proof.
  intros [Hout Hne]%parse_handwriting_Some%parse_characters_Some.
  pose proof (kept_cleaned (String.list_ascii_of_string raw)) as Hkept.
  rewrite <- Hout in Hkept. split; [done|].
  assert (∀ c, c ∈ String.list_ascii_of_string out -> is_space c = false ->
               is_letter c = true) as Hletter.
  { intros c Hin Hspace. rewrite forallb_forall in Hkept.
    apply list_elem_of_In, Hkept, kept_letter_or_space in Hin as [?| ->]; done. }
  split.
  - destruct (String.list_ascii_of_string out) as [|c rest] eqn:Hchars; [done|].
    exists c. split; [done|]. apply Hletter; [left|].
    symmetry in Hout. by apply strip_head in Hout.
  - destruct (last (String.list_ascii_of_string out)) as [c|] eqn:Hlast.
    + exists c. split; [done|]. apply Hletter.
      * by apply last_Some_elem_of.
      * rewrite Hout in Hlast. by apply strip_last in Hlast.
    + by apply last_None in Hlast.
Qed.

(** X4. The name returned is in title case: a letter is upper case when
    it opens the name or follows a space, and lower case when it follows a
    letter, whatever the case of the raw name. *)
Theorem parse_handwriting_title_cased raw out :
  parse_handwriting raw = Some out ->
  title_cased false (String.list_ascii_of_string out) = true.
Proof.
  intros [-> _]%parse_handwriting_Some%parse_characters_Some.
  apply title_cased_strip, title_cased_title_from.
Qed.

(** X6. [/parse] answers 400 with the text "Invalid recipe name" exactly
    when the payload has no ["input"] or an input without a letter, and
    otherwise 200 with the name [parse_handwriting] returns. *)
Theorem parse_status input :
  match parse input with
  | (PlainText text, st) =>
      text = "Invalid recipe name" ∧ st = 400 ∧
      List.filter is_letter (String.list_ascii_of_string (default "" input)) = []
  | (MsgJson msg, st) =>
      st = 200 ∧ parse_handwriting (default "" input) = Some msg ∧
      List.filter is_letter (String.list_ascii_of_string (default "" input)) ≠ []
  end.
Proof.
  unfold parse, parse_handwriting.
  destruct (parse_characters _) as [name|] eqn:Hparse; simpl.
  - split; [done|]. split; [done|].
    intros Hnone%parse_characters_None_iff_no_letter. congruence.
  - split; [done|]. split; [done|].
    by apply parse_characters_None_iff_no_letter.
Qed.

End parse_handwriting_results.

(** "Riz@z RISO00tto!" becomes "Rizz Risotto". *)
Lemma parse_handwriting_keeps_letters_risotto :
  lowered_letters (String.list_ascii_of_string "Rizz Risotto")
  = lowered_letters (String.list_ascii_of_string "Riz@z RISO00tto!").
Proof.
  apply (parse_handwriting_keeps_letters "Riz@z RISO00tto!" "Rizz Risotto").
  vm_compute. reflexivity.
Defined.

Lemma parse_handwriting_shape_risotto :
  forallb is_kept (String.list_ascii_of_string "Rizz Risotto") = true ∧
  (∃ c, head (String.list_ascii_of_string "Rizz Risotto") = Some c ∧
        is_letter c = true) ∧
  (∃ c, last (String.list_ascii_of_string "Rizz Risotto") = Some c ∧
        is_letter c = true).
Proof.
  apply (parse_handwriting_shape "Riz@z RISO00tto!" "Rizz Risotto").
  vm_compute. reflexivity.
Defined.

Lemma parse_handwriting_title_cased_alfredo :
  title_cased false (String.list_ascii_of_string "Alpha Alfredo") = true.
Proof.
  apply (parse_handwriting_title_cased "alpHa-alFRedo" "Alpha Alfredo").
  vm_compute. reflexivity.
Defined.

(** ** Names that are already clean *)

Section clean_names.
Implicit Types (w : list ascii) (words : list (list ascii)).

Lemma word_inv w :
  is_word w = true ->
  ∃ c cs, w = c :: cs ∧ is_upper c = true ∧ forallb is_lower cs = true.
Proof.
  destruct w as [|c cs]; [done|]. cbn [is_word].
  intros [? ?]%andb_true_iff. by exists c, cs.
Qed.

Lemma word_letters w : is_word w = true -> forallb is_letter w = true.
Proof.
  intros (c & cs & -> & Hc & Hcs)%word_inv. cbn [forallb].
  rewrite (upper_is_letter c Hc). simpl.
  rewrite forallb_forall in Hcs. apply forallb_forall.
  intros x Hx. by apply lower_is_letter, Hcs.
Qed.

Lemma sub_separators_letters w rest b :
  forallb is_letter w = true ->
  sub_separators (w ++ rest) b
  = w ++ sub_separators rest (match w with [] => b | _ => false end).
Proof.
  revert b. induction w as [|c w IH]; intros b; [done|].
  cbn [forallb app sub_separators]. intros [Hc Hw]%andb_true_iff.
  rewrite (letter_not_separator c Hc), IH by done. by destruct w.
Qed.

Lemma sub_separators_join words b :
  words ≠ [] -> forallb is_word words = true ->
  sub_separators (join_words words) b = join_words words.
Proof.
  revert b. induction words as [|w words IH]; intros b Hne; [done|].
  cbn [forallb]. intros [Hw Hwords]%andb_true_iff.
  pose proof (word_letters w Hw) as Hletters.
  destruct w as [|c cs]; [done|]. destruct words as [|w' words].
  - cbn [join_words]. rewrite <- (app_nil_r (c :: cs)) at 1.
    rewrite sub_separators_letters by done. simpl. by rewrite app_nil_r.
  - change (join_words ((c :: cs) :: w' :: words))
      with ((c :: cs) ++ " "%char :: join_words (w' :: words)).
    rewrite sub_separators_letters by done. f_equal.
    cbn [sub_separators]. change (is_separator " ") with true.
    cbn iota. by rewrite IH.
Qed.

Lemma kept_join words :
  forallb is_word words = true -> forallb is_kept (join_words words) = true.
Proof.
  assert (∀ w, is_word w = true -> forallb is_kept w = true) as Hword.
  { intros w Hw%word_letters. rewrite forallb_forall in Hw.
    apply forallb_forall. intros c Hc. by apply letter_kept, Hw. }
  induction words as [|w words IH]; [done|].
  cbn [forallb]. intros [Hw Hwords]%andb_true_iff.
  destruct words as [|w' words]; [by apply Hword|].
  change (join_words (w :: w' :: words))
    with (w ++ " "%char :: join_words (w' :: words)).
  rewrite forallb_app, (Hword w Hw). cbn [forallb].
  change (is_kept " ") with true. by rewrite IH.
Qed.

Lemma title_cased_lower_run cs rest :
  forallb is_lower cs = true ->
  title_cased true (cs ++ rest) = title_cased true rest.
Proof.
  induction cs as [|c cs IH]; [done|].
  cbn [forallb app title_cased]. intros [Hc Hcs]%andb_true_iff.
  by rewrite (lower_is_letter c Hc), Hc, IH.
Qed.

Lemma title_cased_join words :
  forallb is_word words = true -> title_cased false (join_words words) = true.
Proof.
  induction words as [|w words IH]; [done|].
  cbn [forallb]. intros [(c & cs & -> & Hc & Hcs)%word_inv Hwords]%andb_true_iff.
  destruct words as [|w' words].
  - cbn [join_words title_cased].
    rewrite (upper_is_letter c Hc), Hc. simpl.
    rewrite <- (app_nil_r cs). by rewrite title_cased_lower_run.
  - change (join_words ((c :: cs) :: w' :: words))
      with (c :: cs ++ " "%char :: join_words (w' :: words)).
    cbn [title_cased]. rewrite (upper_is_letter c Hc), Hc. simpl.
    rewrite title_cased_lower_run by done. cbn [title_cased].
    change (is_letter " ") with false. cbn iota. by apply IH.
Qed.

Lemma join_first words :
  words ≠ [] -> forallb is_word words = true ->
  ∃ c rest, join_words words = c :: rest ∧ is_letter c = true.
Proof.
  destruct words as [|w words]; [done|]. intros _. cbn [forallb].
  intros [(c & cs & -> & Hc & _)%word_inv _]%andb_true_iff.
  apply upper_is_letter in Hc.
  destruct words; [by exists c, cs|]. by eexists c, _.
Qed.

Lemma join_final words :
  words ≠ [] -> forallb is_word words = true ->
  ∃ init c, join_words words = init ++ [c] ∧ is_letter c = true.
Proof.
  induction words as [|w words IH]; [done|]. intros _. cbn [forallb].
  intros [Hw Hwords]%andb_true_iff. destruct words as [|w' words].
  - cbn [join_words]. pose proof (word_letters w Hw) as Hletters.
    destruct (exists_last (l := w)) as (init & c & ->); [by destruct w|].
    exists init, c. split; [done|].
    rewrite forallb_forall in Hletters. apply Hletters, in_app_iff.
    right. by left.
  - destruct IH as (init & c & Hjoin & Hc); [done..|].
    exists (w ++ " "%char :: init), c. split; [|done].
    change (join_words (w :: w' :: words))
      with (w ++ " "%char :: join_words (w' :: words)).
    rewrite Hjoin. by rewrite <- app_assoc.
Qed.

Lemma strip_join words :
  words ≠ [] -> forallb is_word words = true ->
  strip (join_words words) = join_words words.
Proof.
  intros Hne Hwords. unfold strip, rstrip.
  destruct (join_first words Hne Hwords) as (c & rest & Hfirst & Hc).
  destruct (join_final words Hne Hwords) as (init & c' & Hfinal & Hc').
  rewrite (lstrip_id (join_words words)).
  - rewrite lstrip_id; [apply rev_involutive|].
    rewrite Hfinal, rev_app_distr. simpl. by apply letter_not_space.
  - rewrite Hfirst. by apply letter_not_space.
Qed.

(** X5. A name that is already clean comes back unchanged: for words made
    of a capital letter followed by lower-case letters, joined by single
    spaces, [parse_handwriting] returns the name it was given. *)
Theorem parse_handwriting_clean_name words :
  words ≠ [] -> forallb is_word words = true ->
  parse_handwriting (String.string_of_list_ascii (join_words words))
  = Some (String.string_of_list_ascii (join_words words)).
Proof.
  intros Hne Hwords. unfold parse_handwriting.
  rewrite String.list_ascii_of_string_of_list_ascii.
  assert (parse_characters (join_words words) = Some (join_words words)) as ->;
    [|done].
  apply parse_characters_Some. split.
  - rewrite sub_separators_join by done.
    unfold sub_non_letters. rewrite List.forallb_filter_id by by apply kept_join.
    unfold title. rewrite title_from_id by by apply title_cased_join.
    by rewrite strip_join.
  - destruct (join_first words Hne Hwords) as (c & rest & -> & _). done.
Qed.

End clean_names.

(** "Rizz Risotto" is clean. *)
Lemma parse_handwriting_clean_name_risotto :
  parse_handwriting "Rizz Risotto" = Some "Rizz Risotto".
Proof.
  apply (parse_handwriting_clean_name
           [String.list_ascii_of_string "Rizz";
            String.list_ascii_of_string "Risotto"]).
  - discriminate.
  - vm_compute. reflexivity.
Defined.

(** ** Duplicate required items *)

Section duplicates.

Lemma validate_required_items_loop_true items (seen : gset string) :
  validate_required_items_loop items seen = true <->
  (∃ name, name ∈ ri_name <$> items ∧ name ∈ seen) ∨
  ¬ NoDup (ri_name <$> items).
Proof.
  revert seen. induction items as [|item rest IH]; intros seen.
  - simpl. split; [done|].
    intros [(name & Hin & _)|Hdup]; [by apply elem_of_nil in Hin|].
    destruct Hdup. apply NoDup_nil_2.
  - cbn [validate_required_items_loop]. rewrite fmap_cons.
    case_bool_decide as Hseen.
    + split; [|done]. intros _. left. exists (ri_name item). split; [left | done].
    + rewrite IH, NoDup_cons. split.
      * intros [(name & Hin & [Hname| ->%elem_of_singleton]%elem_of_union)|Hdup].
        -- left. exists name. split; [by right | done].
        -- right. by intros [? _].
        -- right. by intros [_ ?].
      * intros [(name & [->|Hin]%elem_of_cons & Hname)|Hdup]; [done| |].
        -- left. exists name. split; [done|]. apply elem_of_union. by left.
        -- destruct (decide (ri_name item ∈ ri_name <$> rest)) as [Hin|Hnotin].
           ++ left. exists (ri_name item). split; [done|].
              apply elem_of_union. right. by apply elem_of_singleton.
           ++ right. intros Hnd. by apply Hdup.
Qed.

Lemma validate_required_items_false items :
  validate_required_items items = false <-> NoDup (ri_name <$> items).
Proof.
  unfold validate_required_items.
  destruct (validate_required_items_loop items ∅) eqn:Hloop.
  - apply validate_required_items_loop_true in Hloop
      as [(name & _ & Hname)|Hdup]; [by apply not_elem_of_empty in Hname|].
    split; [done | by intros ?].
  - split; [|done]. intros _.
    destruct (decide (NoDup (ri_name <$> items))) as [|Hdup]; [done|].
    assert (validate_required_items_loop items ∅ = true) as Htrue
      by (apply validate_required_items_loop_true; by right).
    congruence.
Qed.

(** X8. [validate_required_items] returns [True] exactly when two items of
    the list have the same name; the quantities play no part. *)
Theorem validate_required_items_iff_duplicate items :
  validate_required_items items = true <-> ¬ NoDup (ri_name <$> items).
Proof.
  rewrite <- validate_required_items_false.
  destruct (validate_required_items items); split.
  - by intros _ ?.
  - done.
  - done.
  - intros Hnot. by destruct Hnot.
Qed.

End duplicates.

(** ** What [create_entry] stores *)

Section stored_entries.
Implicit Types (cookbook : Cookbook) (payload : Payload) (e : CookbookEntry).

Lemma find_entry_app cookbook more name :
  find_entry (cookbook ++ more) name =
  match find_entry cookbook name with
  | Some e => Some e
  | None => find_entry more name
  end.
Proof.
  induction cookbook as [|c cookbook IH]; [done|]. simpl.
  by destruct (String.eqb (entry_name c) name).
Qed.

Lemma check_existing_Next cookbook payload name :
  p_name payload = Some name -> name ∉ entry_name <$> cookbook ->
  check_existing cookbook payload = Next tt.
Proof.
  intros Hname. induction cookbook as [|c cookbook IH]; [done|].
  rewrite fmap_cons, not_elem_of_cons. intros [Hne Hnotin].
  simpl. rewrite Hname. simpl.
  destruct (String.eqb_spec (entry_name c) name); [congruence | by apply IH].
Qed.

Lemma build_required_items_payload items :
  build_required_items (item_payload <$> items) = Next items.
Proof.
  induction items as [|[name quantity] items IH]; [done|].
  rewrite fmap_cons. cbn [build_required_items item_payload p_item_name
    p_item_quantity ri_name ri_quantity subscript]. simpl. by rewrite IH.
Qed.

(** An exit before the last [return] is an error answer or an escaping
    [KeyError]. *)
Lemma create_entry_steps_Stop cookbook payload o :
  create_entry_steps cookbook payload = Stop o ->
  (∃ key, o = Raised (KeyError key)) ∨ (∃ msg, o = Returned (error_400 msg)).
Proof.
  unfold create_entry_steps.
  destruct (p_type payload) as [ty|]; simpl;
    [|intros [= <-]; right; by eexists].
  destruct (String.eqb_spec ty "recipe") as [->|Hnr]; simpl.
  - destruct (p_requiredItems payload) as [items|]; simpl;
      [|intros [= <-]; right; by eexists].
    destruct (check_existing cookbook payload) as [[]|o'] eqn:Hexisting; simpl.
    + destruct (build_required_items items) as [built|o'] eqn:Hbuilt; simpl.
      * destruct (validate_required_items built); simpl;
          [intros [= <-]; right; by eexists|].
        destruct (p_name payload); simpl; [done|].
        intros [= <-]. left. by eexists.
      * intros [= ->]. left. by apply build_required_items_Stop in Hbuilt.
    + intros [= ->].
      apply check_existing_Stop in Hexisting as [->| ->];
        [right | left]; by eexists.
  - destruct (String.eqb_spec ty "ingredient") as [->|Hni]; simpl;
      [|intros [= <-]; right; by eexists].
    destruct (p_cookTime payload) as [c|]; simpl;
      [|intros [= <-]; left; by eexists].
    destruct (c <? 0); simpl; [intros [= <-]; right; by eexists|].
    destruct (check_existing cookbook payload) as [[]|o'] eqn:Hexisting; simpl.
    + destruct (p_name payload); simpl; [done|].
      intros [= <-]. left. by eexists.
    + intros [= ->].
      apply check_existing_Stop in Hexisting as [->| ->];
        [right | left]; by eexists.
Qed.

(** What is appended on success. *)
Lemma create_entry_steps_appended cookbook payload cookbook' :
  create_entry_steps cookbook payload = Next cookbook' ->
  ∃ e, cookbook' = cookbook ++ [e] ∧
       p_name payload = Some (entry_name e) ∧
       p_type payload = Some (entry_type e) ∧
       well_formed_entry e ∧
       entry_name e ∉ entry_name <$> cookbook.
Proof.
  intros [Hfresh [(name & items & built & Hty & Hname & _ & _ & Hvalid & ->)
                 |(name & c & Hty & Hname & _ & Hc & ->)]]%create_entry_steps_Next.
  - eexists. split; [done|]. split; [done|]. split; [done|]. split.
    + by apply validate_required_items_false.
    + by eapply check_existing_fresh.
  - eexists. split; [done|]. split; [done|]. split; [done|]. split.
    + done.
    + by eapply check_existing_fresh.
Qed.

(** X9. Every store the program can hold satisfies the invariants of the
    data model: no ingredient has a negative cook time and no recipe lists
    two required items of the same name. *)
Theorem reachable_entries_well_formed cookbook :
  reachable cookbook -> Forall well_formed_entry cookbook.
Proof.
  induction 1 as [|cookbook payload _ IH]; [done|].
  unfold create_entry.
  destruct (create_entry_steps cookbook payload) as [cookbook'|o] eqn:Hsteps;
    [|done].
  apply create_entry_steps_appended in Hsteps as (e & -> & _ & _ & Hwf & _).
  simpl. apply Forall_app. split; [done|]. by apply Forall_singleton.
Qed.

(** X10. [create_entry] changes the store exactly when it answers 200,
    and then it appends one entry, which has the name and the type of the
    payload and a name no stored entry had; on any other outcome, an error
    answer or an escaping exception, the store is what it was. *)
Theorem create_entry_appends_iff_ok cookbook payload :
  ((create_entry cookbook payload).2 = Returned (mkResponse EmptyBody 200) ∧
   ∃ e, (create_entry cookbook payload).1 = cookbook ++ [e] ∧
        p_name payload = Some (entry_name e) ∧
        p_type payload = Some (entry_type e) ∧
        entry_name e ∉ entry_name <$> cookbook) ∨
  ((create_entry cookbook payload).2 ≠ Returned (mkResponse EmptyBody 200) ∧
   (create_entry cookbook payload).1 = cookbook).
Proof.
  unfold create_entry.
  destruct (create_entry_steps cookbook payload) as [cookbook'|o] eqn:Hsteps.
  - left. split; [done|].
    apply create_entry_steps_appended in Hsteps
      as (e & -> & Hname & Hty & _ & Hfresh).
    by exists e.
  - right. split; [|done]. simpl.
    apply create_entry_steps_Stop in Hsteps as [[key ->]|[msg ->]]; done.
Qed.

(** X11. Registering and looking up: for a well-formed entry [e] whose
    name is not in the store, [create_entry] on the payload of [e] answers
    200 and appends [e]; afterwards the lookup of its name finds [e], and
    the lookup of any other name finds what it found before. *)
Theorem create_entry_then_find cookbook e :
  well_formed_entry e -> entry_name e ∉ entry_name <$> cookbook ->
  create_entry cookbook (entry_payload e)
  = (cookbook ++ [e], Returned (mkResponse EmptyBody 200)) ∧
  find_entry (cookbook ++ [e]) (entry_name e) = Some e ∧
  ∀ name, name ≠ entry_name e ->
    find_entry (cookbook ++ [e]) name = find_entry cookbook name.
Proof.
  intros Hwf Hfresh. split; [|split].
  - unfold create_entry, create_entry_steps.
    destruct e as [[name items]|[name c]]; simpl in *.
    + rewrite (check_existing_Next _ _ name) by done. simpl.
      rewrite build_required_items_payload. simpl.
      apply validate_required_items_false in Hwf. by rewrite Hwf.
    + destruct (Z.ltb_spec c 0); [lia|]. simpl.
      by rewrite (check_existing_Next _ _ name).
  - rewrite find_entry_app.
    apply find_entry_None in Hfresh. rewrite Hfresh. simpl.
    by rewrite String.eqb_refl.
  - intros name Hne. rewrite find_entry_app.
    destruct (find_entry cookbook name); [done|]. simpl.
    destruct (String.eqb_spec (entry_name e) name); [congruence | done].
Qed.

End stored_entries.

(** After Salt has been registered, every entry is well formed. *)
Lemma reachable_entries_well_formed_salt :
  Forall well_formed_entry [EIngredient (mkIngredient "Salt" 1)].
Proof.
  apply (reachable_entries_well_formed (create_entry [] salt_payload).1).
  apply reachable_create, reachable_empty.
Defined.

(** Bread is registered in a store that has Flour and Dough. *)
Lemma create_entry_then_find_bread :
  create_entry [flour; ERecipe dough] (entry_payload (ERecipe bread))
  = ([flour; ERecipe dough] ++ [ERecipe bread],
     Returned (mkResponse EmptyBody 200)) ∧
  find_entry ([flour; ERecipe dough] ++ [ERecipe bread]) "Bread"
  = Some (ERecipe bread) ∧
  ∀ name, name ≠ "Bread" ->
    find_entry ([flour; ERecipe dough] ++ [ERecipe bread]) name
    = find_entry [flour; ERecipe dough] name.
Proof.
  apply (create_entry_then_find [flour; ERecipe dough] (ERecipe bread)).
  - apply (bool_decide_unpack _). vm_compute. exact I.
  - apply (bool_decide_unpack _). vm_compute. exact I.
Defined.

(** ** Quantities of required items *)

(** C8 (as amended). [create_entry] puts no bound on a required item's
    quantity. Every recipe payload that passes the other checks (a name
    that is not stored, a [requiredItems] list whose items have a name and
    a quantity, no two of them the same name) is accepted, whatever
    integers the quantities are, zero and negative ones included; and
    whenever a recipe payload is accepted, the stored recipe carries the
    names and the quantities of the payload's items, unchanged and in
    order. *)
Theorem accepted_recipe_keeps_payload_quantities :
  (∀ cookbook payload name built,
     p_type payload = Some "recipe" -> p_name payload = Some name ->
     p_requiredItems payload = Some (item_payload <$> built) ->
     NoDup (ri_name <$> built) -> name ∉ entry_name <$> cookbook ->
     create_entry cookbook payload
     = (cookbook ++ [ERecipe (mkRecipe name built)],
        Returned (mkResponse EmptyBody 200))) ∧
  (∀ cookbook payload cookbook',
     p_type payload = Some "recipe" ->
     create_entry cookbook payload
     = (cookbook', Returned (mkResponse EmptyBody 200)) ->
     ∃ name items built,
       p_name payload = Some name ∧ p_requiredItems payload = Some items ∧
       cookbook' = cookbook ++ [ERecipe (mkRecipe name built)] ∧
       Some <$> (ri_name <$> built) = p_item_name <$> items ∧
       Some <$> (ri_quantity <$> built) = p_item_quantity <$> items).
Proof.
  split.
  { intros cookbook payload name built Hty Hname Hitems Hnodup Hfresh.
    unfold create_entry, create_entry_steps. rewrite Hty. simpl.
    rewrite Hitems. simpl.
    rewrite (check_existing_Next _ _ name) by done. simpl.
    rewrite build_required_items_payload. simpl.
    apply validate_required_items_false in Hnodup. rewrite Hnodup. simpl.
    by rewrite Hname. }
  intros cookbook payload cookbook' Hty. unfold create_entry.
  destruct (create_entry_steps cookbook payload) as [cookbook''|o] eqn:Hsteps.
  - intros [= ->].
    apply create_entry_steps_Next in Hsteps
      as [_ [(name & items & built & _ & Hname & Hitems & Hbuilt & _ & ->)
            |(name & c & Hty' & _)]]; [|congruence].
    exists name, items, built.
    destruct (build_required_items_fields _ _ Hbuilt). by repeat split.
  - intros [= _ ->]. exfalso. revert Hsteps. unfold create_entry_steps.
    rewrite Hty. simpl.
    destruct (p_requiredItems payload) as [items|]; simpl; [|done].
    destruct (check_existing cookbook payload) as [[]|o] eqn:Hexisting; simpl.
    + destruct (build_required_items items) as [built|o] eqn:Hbuilt; simpl.
      * destruct (validate_required_items built); simpl; [done|].
        destruct (p_name payload); by simpl.
      * intros [= ->]. clear Hexisting. revert Hbuilt.
        induction items as [|[[name|] [quantity|]] items IH]; simpl; try done.
        destruct (build_required_items items); simpl; [done|].
        intros [= ->]. by apply IH.
    + intros [= ->]. clear Hty.
      induction cookbook as [|e cookbook IH]; simpl in Hexisting; [done|].
      destruct (p_name payload) as [name|]; simpl in Hexisting; [|done].
      destruct (String.eqb (entry_name e) name); [done | by apply IH].
Qed.

(** A lunch of minus three salts is accepted as it is, in a store that
    has the salt. *)
Lemma accepted_recipe_keeps_payload_quantities_lunch :
  create_entry [EIngredient (mkIngredient "Salt" 1)] (lunch_payload (-3))
  = ([EIngredient (mkIngredient "Salt" 1)]
       ++ [ERecipe (mkRecipe "Lunch" [mkRequiredItem "Salt" (-3)])],
     Returned (mkResponse EmptyBody 200)) ∧
  ∃ name items built,
    p_name (lunch_payload (-3)) = Some name ∧
    p_requiredItems (lunch_payload (-3)) = Some items ∧
    [EIngredient (mkIngredient "Salt" 1)]
      ++ [ERecipe (mkRecipe "Lunch" [mkRequiredItem "Salt" (-3)])]
    = [EIngredient (mkIngredient "Salt" 1)] ++ [ERecipe (mkRecipe name built)] ∧
    Some <$> (ri_name <$> built) = p_item_name <$> items ∧
    Some <$> (ri_quantity <$> built) = p_item_quantity <$> items.
Proof.
  destruct accepted_recipe_keeps_payload_quantities as [Hany Hkept].
  assert (create_entry [EIngredient (mkIngredient "Salt" 1)] (lunch_payload (-3))
          = ([EIngredient (mkIngredient "Salt" 1)]
               ++ [ERecipe (mkRecipe "Lunch" [mkRequiredItem "Salt" (-3)])],
             Returned (mkResponse EmptyBody 200))) as Haccepted.
  { apply (Hany _ (lunch_payload (-3)) "Lunch" [mkRequiredItem "Salt" (-3)]).
    - reflexivity.
    - reflexivity.
    - reflexivity.
    - apply (bool_decide_unpack _). vm_compute. exact I.
    - apply (bool_decide_unpack _). vm_compute. exact I. }
  split; [exact Haccepted|].
  apply (Hkept _ (lunch_payload (-3))); [reflexivity | exact Haccepted].
Defined.

(** C8, as stated, fails: a required item with quantity 0 is stored. *)
Lemma zero_quantity_accepted :
  ¬ (∀ cookbook payload r item,
       create_entry cookbook payload
       = (cookbook ++ [ERecipe r], Returned (mkResponse EmptyBody 200)) ->
       item ∈ required_items r -> 1 <= ri_quantity item).
Proof.
  intros Hclaim.
  specialize (Hclaim [] (lunch_payload 0)
                (mkRecipe "Lunch" [mkRequiredItem "Salt" 0])
                (mkRequiredItem "Salt" 0) eq_refl).
  simpl in Hclaim. specialize (Hclaim (list_elem_of_here _ _)). lia.
Qed.

(** ** The lookup of [summary] *)

Section summary_lookup.
Implicit Types (cookbook : Cookbook) (query_name : option string).

Lemma find_recipe_entry_app cookbook more query_name acc :
  find_recipe_entry (cookbook ++ more) query_name acc =
  match find_recipe_entry cookbook query_name acc with
  | Next found => find_recipe_entry more query_name found
  | Stop o => Stop o
  end.
Proof.
  revert acc. induction cookbook as [|c cookbook IH]; intros acc; [done|].
  simpl. case_bool_decide; [|apply IH]. destruct c; [apply IH | done].
Qed.

Lemma find_recipe_entry_wrong_type cookbook query_name acc o :
  find_recipe_entry cookbook query_name acc = Stop o <->
  o = Returned (error_400 msg_wrong_type) ∧
  ∃ i, EIngredient i ∈ cookbook ∧ Some (i_name i) = query_name.
Proof.
  revert acc. induction cookbook as [|c cookbook IH]; intros acc; simpl.
  - split; [done|]. intros [_ (i & Hin & _)]. by apply elem_of_nil in Hin.
  - case_bool_decide as Hname.
    + destruct c as [r|i].
      * rewrite IH. split.
        -- intros [-> (i & Hin & Hi)]. split; [done|]. exists i. split; [by right|done].
        -- intros [-> (i & [?|Hin]%elem_of_cons & Hi)]; [done|].
           split; [done|]. by exists i.
      * split.
        -- intros [= <-]. split; [done|]. exists i. split; [left | done].
        -- by intros [-> _].
    + rewrite IH. split.
      * intros [-> (i & Hin & Hi)]. split; [done|]. exists i. split; [by right|done].
      * intros [-> (i & [<-|Hin]%elem_of_cons & Hi)]; [done|].
        split; [done|]. by exists i.
Qed.

Lemma find_recipe_entry_none cookbook query_name acc :
  find_recipe_entry cookbook query_name acc = Next None <->
  acc = None ∧ ∀ e, e ∈ cookbook -> Some (entry_name e) ≠ query_name.
Proof.
  revert acc. induction cookbook as [|c cookbook IH]; intros acc; simpl.
  - split; [intros [= ->]; split; [done|] | by intros [-> _]].
    intros e Hin. by apply elem_of_nil in Hin.
  - case_bool_decide as Hname.
    + destruct c as [r|i].
      * rewrite IH. split; [by intros [? _]|].
        intros [_ Hall]. exfalso. by eapply Hall; [left|].
      * split; [done|]. intros [_ Hall]. exfalso. by eapply Hall; [left|].
    + rewrite IH. split.
      * intros [-> Hall]. split; [done|].
        intros e [->|Hin]%elem_of_cons; [done | by apply Hall].
      * intros [-> Hall]. split; [done|]. intros e Hin. apply Hall. by right.
Qed.

Lemma find_recipe_entry_some cookbook query_name acc r :
  find_recipe_entry cookbook query_name acc = Next (Some r) ->
  acc = Some r ∨ (ERecipe r ∈ cookbook ∧ Some (r_name r) = query_name).
Proof.
  revert acc. induction cookbook as [|c cookbook IH]; intros acc; simpl.
  - intros [= ->]. by left.
  - case_bool_decide as Hname.
    + destruct c as [r'|i]; [|done].
      intros [[= ->]|[Hin Hr]]%IH; right.
      * split; [left | done].
      * split; [by right | done].
    + intros [->|[Hin Hr]]%IH; [by left|]. right. split; [by right | done].
Qed.

(** X12. [summary] answers "not in the cookbook" exactly when no stored
    entry has the queried name, whatever the recursion budget; a missing
    [name] argument is such a query. *)
Theorem summary_not_found_iff fuel cookbook query_name :
  summary fuel cookbook query_name = Returned (error_400 msg_not_found) <->
  ∀ e, e ∈ cookbook -> Some (entry_name e) ≠ query_name.
Proof.
  unfold summary.
  destruct (find_recipe_entry cookbook query_name None) as [[r|]|o] eqn:Hfind.
  - split.
    + destruct (get_base_ingredients fuel cookbook r 1) as [d|e|] eqn:Hd;
        [| |done].
      * by destruct (get_total_cook_time cookbook d).
      * apply get_base_ingredients_raise in Hd as ->.
        intros Heq. vm_compute in Heq. discriminate Heq.
    + intros Hall. exfalso.
      apply find_recipe_entry_some in Hfind as [?|[Hin Hr]]; [done|].
      by eapply Hall.
  - apply find_recipe_entry_none in Hfind as [_ Hall]. done.
  - apply find_recipe_entry_wrong_type in Hfind as [-> (i & Hin & Hi)]. split.
    + intros Heq. vm_compute in Heq. discriminate Heq.
    + intros Hall. exfalso. by eapply Hall.
Qed.

(** X13. [summary] answers "an ingredient was passed in" exactly when some
    stored ingredient has the queried name, whatever else is stored under
    that name and whatever the recursion budget. *)
Theorem summary_wrong_type_iff fuel cookbook query_name :
  summary fuel cookbook query_name = Returned (error_400 msg_wrong_type) <->
  ∃ i, EIngredient i ∈ cookbook ∧ Some (i_name i) = query_name.
Proof.
  unfold summary.
  destruct (find_recipe_entry cookbook query_name None) as [[r|]|o] eqn:Hfind.
  - split.
    + destruct (get_base_ingredients fuel cookbook r 1) as [d|e|] eqn:Hd;
        [| |done].
      * by destruct (get_total_cook_time cookbook d).
      * apply get_base_ingredients_raise in Hd as ->.
        intros Heq. vm_compute in Heq. discriminate Heq.
    + intros Hex. exfalso.
      assert (find_recipe_entry cookbook query_name None
              = Stop (Returned (error_400 msg_wrong_type))) as Hstop
        by by apply find_recipe_entry_wrong_type.
      congruence.
  - split.
    + intros Heq. vm_compute in Heq. discriminate Heq.
    + intros (i & Hin & Hi). exfalso.
      apply find_recipe_entry_none in Hfind as [_ Hall]. by eapply Hall.
  - by apply find_recipe_entry_wrong_type in Hfind as [-> Hex].
Qed.

(** X14. In a store without duplicate names, as [create_entry] keeps it,
    [summary] lets no exception escape: whatever the query and the
    recursion limit, it returns a response. *)
Theorem summary_never_raises fuel cookbook query_name e :
  unique_names cookbook -> summary fuel cookbook query_name ≠ Raised e.
Proof.
  intros Huniq. unfold summary.
  destruct (find_recipe_entry cookbook query_name None) as [[r|]|o] eqn:Hfind;
    [|done|].
  - destruct (get_base_ingredients fuel cookbook r 1) as [d|e'|] eqn:Hd;
      [|done|done].
    apply get_base_ingredients_keys in Hd. unfold get_total_cook_time.
    rewrite get_total_cook_time_loop_sum; [done..|].
    intros [name quantity] Hin%elem_of_map_to_list. apply Hd. by exists quantity.
  - by apply find_recipe_entry_Stop in Hfind as ->.
Qed.

End summary_lookup.

(** In the bakery no query raises. *)
Lemma summary_never_raises_bakery :
  summary 3 bakery (Some "Cake") ≠ Raised (AttributeError msg_no_cook_time_attr).
Proof.
  apply (summary_never_raises 3 bakery (Some "Cake")).
  apply (bool_decide_unpack _). vm_compute. exact I.
Defined.

(** ** Resolution and the growth of the store *)

Section growth.
Implicit Types (cookbook : Cookbook) (d base sub : gmap string Z).

Lemma loop_larger_store cookbook cookbook' rec rec' items multiplier :
  (∀ name e, find_entry cookbook name = Some e ->
             find_entry cookbook' name = Some e) ->
  (∀ r m d, rec r m = Ok d -> rec' r m = Ok d) ->
  ∀ base d,
    get_base_ingredients_loop cookbook rec items multiplier base = Ok d ->
    get_base_ingredients_loop cookbook' rec' items multiplier base = Ok d.
Proof.
  intros Hfind Hrec. induction items as [|item rest IH]; intros base d; [done|].
  simpl. destruct (find_entry cookbook (ri_name item)) as [e|] eqn:He; [|done].
  rewrite (Hfind _ _ He). destruct e as [r|i]; [|apply IH].
  destruct (rec r (ri_quantity item * multiplier)) as [sub| |] eqn:Hsub;
    [|done|done].
  rewrite (Hrec _ _ _ Hsub). apply IH.
Qed.

Lemma get_base_ingredients_larger_store cookbook cookbook' fuel recipe multiplier d :
  (∀ name e, find_entry cookbook name = Some e ->
             find_entry cookbook' name = Some e) ->
  get_base_ingredients fuel cookbook recipe multiplier = Ok d ->
  get_base_ingredients fuel cookbook' recipe multiplier = Ok d.
Proof.
  intros Hfind. revert recipe multiplier d.
  induction fuel as [|fuel IH]; intros recipe multiplier d; [done|].
  simpl. apply loop_larger_store; [done|]. intros r m d'. apply IH.
Qed.

(** X17. A successful resolution does not depend on what else is stored:
    in any store that finds the same entry under every name the first one
    knows, and so in the store with any entries appended, the resolution
    returns the same mapping. *)
Theorem resolution_kept_in_larger_store cookbook fuel recipe multiplier d :
  get_base_ingredients fuel cookbook recipe multiplier = Ok d ->
  (∀ cookbook',
     (∀ name e, find_entry cookbook name = Some e ->
                find_entry cookbook' name = Some e) ->
     get_base_ingredients fuel cookbook' recipe multiplier = Ok d) ∧
  (∀ more, get_base_ingredients fuel (cookbook ++ more) recipe multiplier = Ok d).
Proof.
  intros Hd. split.
  - intros cookbook' Hfind. by eapply get_base_ingredients_larger_store.
  - intros more. eapply get_base_ingredients_larger_store; [|done].
    intros name e He. by rewrite find_entry_app, He.
Qed.

Lemma cook_time_scan_app cookbook more name quantity total :
  cook_time_scan (cookbook ++ more) name quantity total =
  match cook_time_scan cookbook name quantity total with
  | Ok total' => cook_time_scan more name quantity total'
  | other => other
  end.
Proof.
  revert total. induction cookbook as [|c cookbook IH]; intros total; simpl.
  - by destruct (cook_time_scan more name quantity total).
  - destruct (String.eqb (entry_name c) name); [|apply IH].
    destruct c; [done | apply IH].
Qed.

Lemma get_total_cook_time_loop_snoc cookbook e items total :
  (∀ kv, kv ∈ items -> kv.1 ≠ entry_name e) ->
  get_total_cook_time_loop (cookbook ++ [e]) items total
  = get_total_cook_time_loop cookbook items total.
Proof.
  revert total. induction items as [|[name quantity] items IH]; intros total Hne;
    [done|].
  simpl. rewrite cook_time_scan_app.
  destruct (cook_time_scan cookbook name quantity total) as [total'| |]; [|done..].
  simpl. destruct (String.eqb_spec (entry_name e) name) as [Heq|_].
  - exfalso. by apply (Hne (name, quantity)); [left|].
  - apply IH. intros kv Hkv. apply Hne. by right.
Qed.

(** X15. Registering never spoils a summary: when [summary] answers 200
    for a query, it gives the same answer, with the same mapping and the
    same cook time, after any call of [create_entry]. *)
Theorem summary_kept_by_create_entry fuel cookbook query_name payload total d :
  summary fuel cookbook query_name
  = Returned (mkResponse (SummaryJson query_name total d) 200) ->
  summary fuel (create_entry cookbook payload).1 query_name
  = Returned (mkResponse (SummaryJson query_name total d) 200).
Proof.
  intros Hsummary.
  destruct (create_entry_store cookbook payload)
    as [->|(e & -> & Hname & Hfresh)]; [done|].
  apply (check_existing_fresh _ _ _ Hname) in Hfresh.
  revert Hsummary. unfold summary. rewrite find_recipe_entry_app.
  destruct (find_recipe_entry cookbook query_name None) as [[r|]|o] eqn:Hfind.
  - apply find_recipe_entry_some in Hfind as [?|[Hin Hr]]; [done|].
    cbn [find_recipe_entry]. rewrite bool_decide_eq_false_2.
    + destruct (get_base_ingredients fuel cookbook r 1) as [d'| |] eqn:Hd;
        [|by destruct e0|done].
      rewrite (get_base_ingredients_larger_store cookbook (cookbook ++ [e])
                 fuel r 1 d'); [| |done].
      * unfold get_total_cook_time. rewrite get_total_cook_time_loop_snoc; [done|].
        intros [name quantity] Hin'%elem_of_map_to_list. simpl. intros ->.
        apply Hfresh.
        destruct (get_base_ingredients_keys _ _ _ _ _ Hd (entry_name e))
          as [i Hi]; [by exists quantity|].
        apply find_entry_Some in Hi as [<- Hi]. by apply list_elem_of_fmap_2.
      * intros name e' He'. by rewrite find_entry_app, He'.
    + intros Heq. apply Hfresh. rewrite <- Hr in Heq. injection Heq as ->.
      change (r_name r) with (entry_name (ERecipe r)).
      by apply list_elem_of_fmap_2.
  - intros Heq. vm_compute in Heq. discriminate Heq.
  - apply find_recipe_entry_Stop in Hfind as ->.
    intros Heq. vm_compute in Heq. discriminate Heq.
Qed.

End growth.

(** The mapping of Bread is the same after Cake and a second Flour have
    been appended. *)
Lemma resolution_kept_in_larger_store_bread :
  (∀ cookbook',
     (∀ name e, find_entry [flour; ERecipe dough; ERecipe bread] name = Some e ->
                find_entry cookbook' name = Some e) ->
     get_base_ingredients 3 cookbook' bread 1 = Ok {["Flour" := 6]}) ∧
  (∀ more,
     get_base_ingredients 3 ([flour; ERecipe dough; ERecipe bread] ++ more) bread 1
     = Ok {["Flour" := 6]}).
Proof.
  apply (resolution_kept_in_larger_store [flour; ERecipe dough; ERecipe bread]
           3 bread 1 {["Flour" := 6]}).
  vm_compute. reflexivity.
Defined.

(** The summary of Bread survives the registration of Salt. *)
Lemma summary_kept_by_create_entry_bread :
  summary 3 (create_entry bakery salt_payload).1 (Some "Bread")
  = Returned (mkResponse (SummaryJson (Some "Bread") 6 {["Flour" := 6]}) 200).
Proof.
  apply (summary_kept_by_create_entry 3 bakery (Some "Bread") salt_payload 6
           {["Flour" := 6]}).
  vm_compute. reflexivity.
Defined.

(** ** The multiplier and the order of the required items *)

Section multiplier_and_order.
Variable cookbook : Cookbook.
Implicit Types (d base sub : gmap string Z).

Lemma default_scale k (o : option Z) : default 0 (Z.mul k <$> o) = k * default 0 o.
Proof. destruct o; simpl; lia. Qed.

Lemma dict_add_scale k d name v :
  dict_add (Z.mul k <$> d) name (k * v) = Z.mul k <$> dict_add d name v.
Proof.
  apply map_eq. intros key.
  rewrite lookup_fmap, !dict_add_lookup, lookup_fmap, default_scale.
  case_bool_decide; simpl; [f_equal; lia | by rewrite lookup_fmap].
Qed.

Lemma dict_merge_scale k base sub :
  dict_merge (Z.mul k <$> base) (Z.mul k <$> sub)
  = Z.mul k <$> dict_merge base sub.
Proof.
  apply map_eq. intros key.
  rewrite lookup_fmap, !dict_merge_lookup, !lookup_fmap.
  destruct (sub !! key) as [v|]; simpl; [|done].
  rewrite default_scale. f_equal. lia.
Qed.

Lemma loop_scale rec k items multiplier base :
  (∀ r m, rec r (k * m) = map_result (fmap (Z.mul k)) (rec r m)) ->
  get_base_ingredients_loop cookbook rec items (k * multiplier) (Z.mul k <$> base)
  = map_result (fmap (Z.mul k))
      (get_base_ingredients_loop cookbook rec items multiplier base).
Proof.
  intros Hrec. revert base. induction items as [|item rest IH]; intros base;
    [done|].
  simpl. destruct (find_entry cookbook (ri_name item)) as [[r|i]|]; [| |done].
  - replace (ri_quantity item * (k * multiplier))
      with (k * (ri_quantity item * multiplier)) by lia.
    rewrite Hrec.
    destruct (rec r (ri_quantity item * multiplier)) as [sub| |]; simpl;
      [|done|done].
    by rewrite dict_merge_scale, IH.
  - replace (ri_quantity item * (k * multiplier))
      with (k * (ri_quantity item * multiplier)) by lia.
    by rewrite dict_add_scale, IH.
Qed.

(** X16. The resolver is linear in its multiplier: with the multiplier
    taken [k] times, the outcome is the same exception or exhaustion, or
    the same mapping with every quantity taken [k] times (keys are kept
    even when [k] is 0). *)
Theorem get_base_ingredients_linear fuel recipe k multiplier :
  get_base_ingredients fuel cookbook recipe (k * multiplier)
  = map_result (fmap (Z.mul k))
      (get_base_ingredients fuel cookbook recipe multiplier).
Proof.
  revert recipe multiplier.
  induction fuel as [|fuel IH]; intros recipe multiplier; [done|].
  simpl. rewrite <- (fmap_empty (Z.mul k)). apply loop_scale. apply IH.
Qed.

Lemma dict_add_all_comm base (pairs pairs' : list (string * Z)) :
  dict_add_all (dict_add_all base pairs) pairs'
  = dict_add_all (dict_add_all base pairs') pairs.
Proof.
  apply map_eq. intros key. rewrite !dict_add_all_lookup.
  repeat case_bool_decide; simpl; try done. f_equal. lia.
Qed.

Lemma dict_add_as_add_all base name v :
  dict_add base name v = dict_add_all base [(name, v)].
Proof. done. Qed.

Lemma loop_permutation rec items items' multiplier :
  items ≡ₚ items' ->
  ∀ base d,
    get_base_ingredients_loop cookbook rec items multiplier base = Ok d ->
    get_base_ingredients_loop cookbook rec items' multiplier base = Ok d.
Proof.
  induction 1 as [|item items items' _ IH|item item' items|? ? ? _ IH1 _ IH2];
    intros base d.
  - done.
  - simpl. destruct (find_entry cookbook (ri_name item)) as [[r|i]|]; [| |done].
    + destruct (rec r (ri_quantity item * multiplier)); [apply IH|done|done].
    + apply IH.
  - simpl.
    destruct (find_entry cookbook (ri_name item)) as [[r|i]|],
             (find_entry cookbook (ri_name item')) as [[r'|i']|];
      try done;
      repeat match goal with
             | |- context [rec ?r ?m] => destruct (rec r m) as [?| |]; try done
             end;
      rewrite ?dict_add_as_add_all; unfold dict_merge;
      by rewrite dict_add_all_comm.
  - intros Hd. by apply IH2, IH1.
Qed.

(** X18. The order in which a recipe lists its required items does not
    matter to a successful resolution: a recipe with the same items in
    another order resolves to the same mapping. *)
Theorem resolution_ignores_item_order fuel recipe recipe' multiplier d :
  required_items recipe ≡ₚ required_items recipe' ->
  get_base_ingredients fuel cookbook recipe multiplier = Ok d ->
  get_base_ingredients fuel cookbook recipe' multiplier = Ok d.
Proof.
  intros Hperm. destruct fuel as [|fuel]; [done|]. simpl.
  by apply loop_permutation.
Qed.

End multiplier_and_order.

(** The cake with Dough listed before Flour. *)
Lemma resolution_ignores_item_order_cake :
  get_base_ingredients 3 bakery
    (mkRecipe "Cake" [mkRequiredItem "Dough" 1; mkRequiredItem "Flour" 1]) 1
  = Ok {["Flour" := 3]}.
Proof.
  apply (resolution_ignores_item_order bakery 3 cake).
  - apply Permutation_swap.
  - vm_compute. reflexivity.
Defined.

(** ** Cook time in any store *)

Section cook_time_any_store.
Variable cookbook : Cookbook.

Lemma names_recipe_cons c rest name :
  names_recipe (c :: rest) name <->
  (∃ r, c = ERecipe r ∧ r_name r = name) ∨ names_recipe rest name.
Proof.
  unfold names_recipe. split.
  - intros (r & [<-|Hin]%elem_of_cons & Hr); [left | right]; by exists r.
  - intros [(r & -> & Hr)|(r & Hin & Hr)]; exists r; split; try done;
      [left | by right].
Qed.

Lemma cook_time_scan_result rest name quantity total :
  (names_recipe rest name ∧
   cook_time_scan rest name quantity total
   = Raise (AttributeError msg_no_cook_time_attr)) ∨
  (¬ names_recipe rest name ∧
   cook_time_scan rest name quantity total
   = Ok (total + matching_cook_time rest name * quantity)).
Proof.
  revert total. induction rest as [|c rest IH]; intros total.
  - right. split; [|simpl; f_equal; lia].
    intros (r & Hin & _). by apply elem_of_nil in Hin.
  - simpl. destruct c as [r|i]; simpl.
    + destruct (String.eqb_spec (r_name r) name) as [Heq|Hne].
      * left. split; [|done]. apply names_recipe_cons. left. by exists r.
      * destruct (IH total) as [[Hrec ->]|[Hnot ->]]; [left | right];
          (split; [|done]); rewrite names_recipe_cons.
        -- by right.
        -- intros [(r' & [= <-] & Hr')|?]; done.
    + assert (names_recipe (EIngredient i :: rest) name <-> names_recipe rest name)
        as Hiff.
      { rewrite names_recipe_cons. split; [|by right].
        by intros [(r & ? & _)|?]. }
      destruct (String.eqb (i_name i) name).
      * destruct (IH (total + cook_time i * quantity)) as [[Hrec ->]|[Hnot ->]];
          [left | right]; (split; [by rewrite Hiff|]); [done|]. f_equal; lia.
      * destruct (IH total) as [[Hrec ->]|[Hnot ->]];
          [left | right]; (split; [by rewrite Hiff|]); [done|]. f_equal; lia.
Qed.

Lemma get_total_cook_time_loop_result items total :
  ((∃ kv, kv ∈ items ∧ names_recipe cookbook kv.1) ∧
   get_total_cook_time_loop cookbook items total
   = Raise (AttributeError msg_no_cook_time_attr)) ∨
  ((∀ kv, kv ∈ items -> ¬ names_recipe cookbook kv.1) ∧
   get_total_cook_time_loop cookbook items total
   = Ok (total + matching_cook_time_sum cookbook items)).
Proof.
  revert total. induction items as [|[name quantity] items IH]; intros total.
  - right. split; [|simpl; f_equal; lia].
    intros kv Hin. by apply elem_of_nil in Hin.
  - simpl.
    destruct (cook_time_scan_result cookbook name quantity total)
      as [[Hrec ->]|[Hnot ->]].
    + left. split; [|done]. exists (name, quantity). split; [left | done].
    + destruct (IH (total + matching_cook_time cookbook name * quantity))
        as [[(kv & Hin & Hrec) ->]|[Hall ->]]; [left | right].
      * split; [|done]. exists kv. split; [by right | done].
      * split; [|f_equal; lia].
        intros kv [->|Hin]%elem_of_cons; [done | by apply Hall].
Qed.

(** X19. [get_total_cook_time] raises, with an [AttributeError], exactly
    when a key of the mapping is the name of a stored recipe; stored
    ingredients of that name before the recipe do not prevent it. *)
Theorem get_total_cook_time_raises_iff (d : gmap string Z) e :
  get_total_cook_time cookbook d = Raise e <->
  e = AttributeError msg_no_cook_time_attr ∧
  ∃ name, is_Some (d !! name) ∧ names_recipe cookbook name.
Proof.
  unfold get_total_cook_time.
  destruct (get_total_cook_time_loop_result (map_to_list d) 0)
    as [[([name quantity] & Hin%elem_of_map_to_list & Hrec) ->]|[Hall ->]].
  - split; [|by intros [-> _]]. intros [= <-]. split; [done|].
    exists name. split; [by exists quantity | done].
  - split; [done|]. intros [_ (name & [quantity Hname] & Hrec)]. exfalso.
    apply (Hall (name, quantity)); [by apply elem_of_map_to_list | done].
Qed.

(** X20. When no key of the mapping is the name of a stored recipe,
    [get_total_cook_time] returns the sum over the pairs of the mapping of
    the quantity times the cook times of all stored ingredients of that
    name: an ingredient stored twice counts twice, a name that is not
    stored counts for nothing. *)
Theorem get_total_cook_time_counts_every_match (d : gmap string Z) :
  (∀ name, is_Some (d !! name) -> ¬ names_recipe cookbook name) ->
  get_total_cook_time cookbook d
  = Ok (matching_cook_time_sum cookbook (map_to_list d)).
Proof.
  intros Hnone. unfold get_total_cook_time.
  destruct (get_total_cook_time_loop_result (map_to_list d) 0)
    as [[([name quantity] & Hin%elem_of_map_to_list & Hrec) _]|[_ ->]].
  - exfalso. apply (Hnone name); [by exists quantity | done].
  - f_equal; lia.
Qed.

End cook_time_any_store.

(** Two stored Flours, and a Sugar that is not stored. *)
Lemma get_total_cook_time_counts_every_match_flours :
  get_total_cook_time
    [flour; EIngredient (mkIngredient "Flour" 4)]
    {["Flour" := 2; "Sugar" := 7]}
  = Ok (matching_cook_time_sum [flour; EIngredient (mkIngredient "Flour" 4)]
          (map_to_list ({["Flour" := 2; "Sugar" := 7]} : gmap string Z))).
Proof.
  apply (get_total_cook_time_counts_every_match
           [flour; EIngredient (mkIngredient "Flour" 4)]).
  intros name _ (r & Hin & _).
  apply elem_of_cons in Hin as [Hin|Hin]; [discriminate Hin|].
  apply elem_of_cons in Hin as [Hin|Hin]; [discriminate Hin|].
  by apply elem_of_nil in Hin.
Defined.

(** ** Deleted characters between two spaces *)

Section deleted_between_spaces.
Implicit Types (w junk : list ascii) (words : list (list ascii)).

Lemma sub_separators_join_app words rest b :
  words ≠ [] -> forallb is_word words = true ->
  sub_separators (join_words words ++ rest) b
  = join_words words ++ sub_separators rest false.
Proof.
  revert b. induction words as [|w words IH]; intros b Hne; [done|].
  cbn [forallb]. intros [Hw Hwords]%andb_true_iff.
  pose proof (word_letters w Hw) as Hletters.
  destruct w as [|c cs]; [done|]. destruct words as [|w' words].
  - cbn [join_words]. by rewrite sub_separators_letters.
  - change (join_words ((c :: cs) :: w' :: words))
      with ((c :: cs) ++ " "%char :: join_words (w' :: words)).
    rewrite <- !app_assoc. rewrite sub_separators_letters by done. f_equal.
    cbn [app sub_separators]. change (is_separator " ") with true.
    cbn iota. by rewrite IH.
Qed.

Lemma sub_separators_deleted junk rest b :
  junk ≠ [] -> forallb is_deleted junk = true ->
  sub_separators (junk ++ rest) b = junk ++ sub_separators rest false.
Proof.
  revert b. induction junk as [|c junk IH]; intros b Hne; [done|].
  cbn [forallb app sub_separators].
  intros [[_ Hc%negb_true_iff]%andb_true_iff Hjunk]%andb_true_iff.
  rewrite Hc. f_equal. destruct junk as [|c' junk]; [done|]. by apply IH.
Qed.

Lemma sub_non_letters_deleted junk :
  forallb is_deleted junk = true -> sub_non_letters junk = [].
Proof.
  unfold sub_non_letters. induction junk as [|c junk IH]; [done|].
  cbn [forallb List.filter].
  intros [[Hc%negb_true_iff _]%andb_true_iff Hjunk]%andb_true_iff.
  rewrite Hc. by apply IH.
Qed.

Lemma title_cased_join_app words rest :
  words ≠ [] -> forallb is_word words = true ->
  title_cased false (join_words words ++ rest) = title_cased true rest.
Proof.
  induction words as [|w words IH]; [done|]. intros _. cbn [forallb].
  intros [(c & cs & -> & Hc & Hcs)%word_inv Hwords]%andb_true_iff.
  destruct words as [|w' words].
  - cbn [join_words app title_cased].
    rewrite (upper_is_letter c Hc), Hc. simpl.
    by apply title_cased_lower_run.
  - change (join_words ((c :: cs) :: w' :: words))
      with ((c :: cs) ++ " "%char :: join_words (w' :: words)).
    rewrite <- !app_assoc. cbn [app title_cased].
    rewrite (upper_is_letter c Hc), Hc. simpl.
    rewrite title_cased_lower_run by done. cbn [title_cased].
    change (is_letter " ") with false. cbn iota. by apply IH.
Qed.

(** X7. Deleted characters that stand alone between two spaces leave both
    spaces behind: for two clean names with a space, some digits or
    punctuation marks and a space between them, [parse_handwriting] returns
    the two names with two spaces in a row. The separators are collapsed
    before the other characters are deleted, and not again after. *)
Theorem parse_handwriting_keeps_both_spaces words words' junk :
  words ≠ [] -> forallb is_word words = true ->
  words' ≠ [] -> forallb is_word words' = true ->
  junk ≠ [] -> forallb is_deleted junk = true ->
  parse_handwriting
    (String.string_of_list_ascii
       (join_words words ++ " "%char :: junk ++ " "%char :: join_words words'))
  = Some (String.string_of_list_ascii
            (join_words words ++ " "%char :: " "%char :: join_words words')).
Proof.
  intros Hne Hwords Hne' Hwords' Hjunk Hdeleted. unfold parse_handwriting.
  rewrite String.list_ascii_of_string_of_list_ascii.
  set (out := join_words words ++ " "%char :: " "%char :: join_words words').
  assert (parse_characters
            (join_words words ++ " "%char :: junk ++ " "%char :: join_words words')
          = Some out) as ->; [|done].
  destruct (join_first words Hne Hwords) as (c & rest & Hfirst & Hc).
  destruct (join_final words' Hne' Hwords') as (init & c' & Hfinal & Hc').
  apply parse_characters_Some. split; [|by unfold out; rewrite Hfirst].
  rewrite sub_separators_join_app by done.
  cbn [sub_separators]. change (is_separator " ") with true. cbn iota.
  rewrite sub_separators_deleted by done.
  cbn [sub_separators]. change (is_separator " ") with true. cbn iota.
  rewrite sub_separators_join by done.
  assert (sub_non_letters
            (join_words words ++ " "%char :: junk ++ " "%char :: join_words words')
          = out) as ->.
  { unfold sub_non_letters, out.
    rewrite List.filter_app. cbn [List.filter]. change (is_kept " ") with true.
    cbn iota. rewrite List.filter_app. cbn [List.filter].
    change (is_kept " ") with true. cbn iota.
    fold (sub_non_letters junk). rewrite (sub_non_letters_deleted junk) by done.
    by rewrite !List.forallb_filter_id by by apply kept_join. }
  unfold title. rewrite title_from_id.
  - unfold strip, rstrip, out. rewrite (lstrip_id (join_words words ++ _)).
    + rewrite lstrip_id; [by rewrite rev_involutive|].
      rewrite Hfinal.
      replace (join_words words ++ " "%char :: " "%char :: init ++ [c'])
        with ((join_words words ++ " "%char :: " "%char :: init) ++ [c'])
        by by rewrite <- app_assoc.
      rewrite rev_app_distr. simpl. by apply letter_not_space.
    + rewrite Hfirst. simpl. by apply letter_not_space.
  - unfold out. rewrite title_cased_join_app by done. cbn [title_cased].
    change (is_letter " ") with false. cbn iota. by apply title_cased_join.
Qed.

End deleted_between_spaces.

(** "Mac 2 Cheese" becomes "Mac  Cheese". *)
Lemma parse_handwriting_keeps_both_spaces_mac :
  parse_handwriting "Mac 2 Cheese" = Some "Mac  Cheese".
Proof.
  apply (parse_handwriting_keeps_both_spaces
           [String.list_ascii_of_string "Mac"]
           [String.list_ascii_of_string "Cheese"]
           (String.list_ascii_of_string "2")).
  - discriminate.
  - vm_compute. reflexivity.
  - discriminate.
  - vm_compute. reflexivity.
  - discriminate.
  - vm_compute. reflexivity.
Defined.

(** Without a letter there is no name; "123" has none. *)
Lemma parse_handwriting_None_iff_no_letter_digits :
  parse_handwriting "123" = None.
Proof.
  apply (proj2 (parse_handwriting_None_iff_no_letter "123")).
  vm_compute. reflexivity.
Defined.

(** Two potatoes are a duplicate, whatever their quantities. *)
Lemma validate_required_items_iff_duplicate_potato :
  validate_required_items
    [mkRequiredItem "potato" 1; mkRequiredItem "potato" 2] = true.
Proof.
  apply (proj2 (validate_required_items_iff_duplicate
                  [mkRequiredItem "potato" 1; mkRequiredItem "potato" 2])).
  apply (bool_decide_unpack _). vm_compute. exact I.
Defined.

(** The bakery has no Pizza. *)
Lemma summary_not_found_iff_pizza :
  summary 3 bakery (Some "Pizza") = Returned (error_400 msg_not_found).
Proof.
  apply (proj2 (summary_not_found_iff 3 bakery (Some "Pizza"))).
  apply Forall_forall. apply (bool_decide_unpack _). vm_compute. exact I.
Defined.

(** Flour is an ingredient of the bakery. *)
Lemma summary_wrong_type_iff_flour :
  summary 3 bakery (Some "Flour") = Returned (error_400 msg_wrong_type).
Proof.
  apply (proj2 (summary_wrong_type_iff 3 bakery (Some "Flour"))).
  exists (mkIngredient "Flour" 1). split; [|reflexivity].
  apply (bool_decide_unpack _). vm_compute. exact I.
Defined.

(** A mapping with the key Dough, which is a recipe of the bakery. *)
Lemma get_total_cook_time_raises_iff_dough :
  get_total_cook_time bakery {["Dough" := 1]}
  = Raise (AttributeError msg_no_cook_time_attr).
Proof.
  apply (proj2 (get_total_cook_time_raises_iff bakery {["Dough" := 1]} _)).
  split; [reflexivity|]. exists "Dough". split.
  - exists 1. vm_compute. reflexivity.
  - exists dough. split; [|reflexivity].
    apply (bool_decide_unpack _). vm_compute. exact I.
Defined.
